(** * localbinary: the plugin process supervisor of libmachine

    A shallow embedding of [libmachine/drivers/plugin/localbinary/plugin.go]
    and the properties of its lifecycle: resolution of the driver binary,
    launch of the child with inherited arguments and optional credentials,
    the one-line address handshake, the event loop relaying the child's
    output, the [Address] accessor and shutdown.

    Conventions.  A Go [string] is a Rocq [string] (a sequence of bytes).
    [int] is the 64-bit integer of the usual targets, [uint32] is [Z] reduced
    modulo [2^32], a [time.Duration] is a [Z] counting nanoseconds.  A Go
    [error] is an [option error], [None] being [nil].  What the operating
    system and the child process answer is data of the model ([World],
    [OS], [Child]); goroutines are threads of a labelled transition system
    whose labels are the scheduling choices of the Go runtime. *)

From Stdlib Require Import ZArith Lia Bool Ascii String.
From stdpp Require Import base strings list gmap.

Local Open Scope string_scope.
Local Open Scope Z_scope.

(** ** Strings of the Go standard library *)

Module GoStrings.

Definition bytes (s : string) : list ascii := list_ascii_of_string s.
Definition str (l : list ascii) : string := string_of_list_ascii l.
Definition byte (n : nat) : ascii := ascii_of_nat n.

(** [dropPrefix p s] is the rest of [s] after its prefix [p], if [p] is
    one. *)
Fixpoint dropPrefix (p s : list ascii) : option (list ascii) :=
  match p, s with
  | [], _ => Some s
  | a :: p', b :: s' => if Ascii.eqb a b then dropPrefix p' s' else None
  | _ :: _, [] => None
  end.

(** The runes of [unicode.IsSpace] (Unicode's White_Space property), each
    as its UTF-8 encoding: U+0009..U+000D, U+0020, U+0085, U+00A0, U+1680,
    U+2000..U+200A, U+2028, U+2029, U+202F, U+205F, U+3000.  Decoding the
    first (or the last) rune of a string gives one of these runes exactly
    when the string starts (or ends) with its encoding: an ill-formed
    sequence decodes to U+FFFD, which is no space. *)
Definition spaces : list (list ascii) :=
  map (map byte)
    [ [9]; [10]; [11]; [12]; [13]; [32]; [194; 133]; [194; 160];
      [225; 154; 128];
      [226; 128; 128]; [226; 128; 129]; [226; 128; 130]; [226; 128; 131];
      [226; 128; 132]; [226; 128; 133]; [226; 128; 134]; [226; 128; 135];
      [226; 128; 136]; [226; 128; 137]; [226; 128; 138];
      [226; 128; 168]; [226; 128; 169]; [226; 128; 175];
      [226; 129; 159]; [227; 128; 128] ]%nat.

(** The rest of [s] after one leading rune of [cut], if it starts with
    one. *)
Fixpoint dropOne (cut : list (list ascii)) (s : list ascii)
  : option (list ascii) :=
  match cut with
  | [] => None
  | p :: cut' =>
      match p, dropPrefix p s with
      | _ :: _, Some rest => Some rest
      | _, _ => dropOne cut' s
      end
  end.

Fixpoint trimLeftFuel (fuel : nat) (cut : list (list ascii))
    (s : list ascii) : list ascii :=
  match fuel with
  | O => s
  | S fuel' =>
      match dropOne cut s with
      | Some rest => trimLeftFuel fuel' cut rest
      | None => s
      end
  end.

(** Every rune removed takes a byte at least, so the length of the string
    is fuel enough. *)
Definition trimLeft (cut : list (list ascii)) (s : list ascii) : list ascii :=
  trimLeftFuel (length s) cut s.

Definition trimRight (cut : list (list ascii)) (s : list ascii) : list ascii :=
  rev (trimLeft (map (@rev ascii) cut) (rev s)).

(** [strings.TrimSpace]: leading runes first, then trailing ones. *)
Definition TrimSpace (s : string) : string :=
  str (trimRight spaces (trimLeft spaces (bytes s))).

(** [strings.Trim(s, "\n")], the only cutset the package uses. *)
Definition newline : list (list ascii) := [[byte 10]].
Definition TrimNewlines (s : string) : string :=
  str (trimRight newline (trimLeft newline (bytes s))).

(** [filepath.Split] on a system whose separator is [/]: the directory
    runs up to the last separator, which it keeps. *)
Definition isSlash (c : ascii) : bool := Ascii.eqb c "/"%char.

Fixpoint splitLast (s : list ascii) : list ascii * list ascii :=
  match s with
  | [] => ([], [])
  | c :: s' =>
      let '(d, f) := splitLast s' in
      match d with
      | [] => if isSlash c then ([c], f) else ([], c :: f)
      | _ :: _ => (c :: d, f)
      end
  end.

Definition Split (path : string) : string * string :=
  let '(d, f) := splitLast (bytes path) in (str d, str f).

(** [strconv.Atoi] with a 64-bit [int]: an optional sign, then one
    decimal digit at least and nothing else, the value within range. *)
Definition minInt : Z := - 2 ^ 63.
Definition maxInt : Z := 2 ^ 63 - 1.

Definition digit (c : ascii) : option Z :=
  let n := Z.of_nat (nat_of_ascii c) in
  if (48 <=? n) && (n <=? 57) then Some (n - 48) else None.

Fixpoint digits (acc : Z) (s : list ascii) : option Z :=
  match s with
  | [] => Some acc
  | c :: s' =>
      match digit c with
      | Some d => digits (acc * 10 + d) s'
      | None => None
      end
  end.

Definition unsigned (s : list ascii) : option Z :=
  match s with
  | [] => None
  | _ :: _ => digits 0 s
  end.

Definition parseInt (s : string) : option Z :=
  let magnitude :=
    match bytes s with
    | c :: rest =>
        if Ascii.eqb c "-"%char then Z.opp <$> unsigned rest
        else if Ascii.eqb c "+"%char then unsigned rest
        else unsigned (c :: rest)
    | [] => None
    end in
  match magnitude with
  | Some v => if (minInt <=? v) && (v <=? maxInt) then Some v else None
  | None => None
  end.

(** The conversion [uint32(x)] of an [int]. *)
Definition uint32 (x : Z) : Z := x mod 2 ^ 32.

End GoStrings.
Import GoStrings.

(** ** Errors and log records *)

(** An [error] is one of the values the package builds or receives.  The
    message of [fmt.Errorf] is determined by its format and argument, which
    the constructor keeps. *)
Inductive error : Type :=
| OSError (msg : string)
| NumError (func num : string)
| ErrPluginBinaryNotFound (driverName driverPath : string)
| Errorf (format : string) (a : arg)
with arg : Type :=
| AString (s : string)
| AError (e : error)
| ADuration (d : Z).

Definition Atoi (s : string) : Z + error :=
  match parseInt s with
  | Some v => inl v
  | None => inr (NumError "Atoi" s)
  end.

Inductive Level : Type := DebugLevel | InfoLevel | WarnLevel.

Record LogRecord : Type := {
  level : Level;
  format : string;
  args : list arg
}.

(** ** Outcomes of operations that may block or panic *)

Inductive Outcome (A : Type) : Type :=
| Done (a : A)
| Blocks
| Panics (msg : string).
Arguments Done {A} a.
Arguments Blocks {A}.
Arguments Panics {A} msg.

#[global] Instance Outcome_ret : MRet Outcome := fun A a => Done a.

#[global] Instance Outcome_bind : MBind Outcome := fun A B k m =>
  match m with
  | Done a => k a
  | Blocks => Blocks
  | Panics msg => Panics msg
  end.

(** ** Channels *)

Record chan (A : Type) : Type := {
  capacity : nat;
  queue : list A;
  closed : bool
}.
Arguments capacity {A} c.
Arguments queue {A} c.
Arguments closed {A} c.

Definition make (A : Type) (n : nat) : chan A :=
  {| capacity := n; queue := []; closed := false |}.

(** [ch <- v] on a buffered channel. *)
Definition send {A : Type} (ch : chan A) (v : A) : Outcome (chan A) :=
  if closed ch then Panics "send on closed channel"
  else if (length (queue ch) <? capacity ch)%nat
       then Done {| capacity := capacity ch; queue := queue ch ++ [v];
                    closed := false |}
       else Blocks.

(** [<-ch]: a buffered value first; the zero value once the channel is
    closed and drained. *)
Definition recv {A : Type} (zero : A) (ch : chan A) : Outcome (A * chan A) :=
  match queue ch with
  | v :: rest =>
      Done (v, {| capacity := capacity ch; queue := rest; closed := closed ch |})
  | [] => if closed ch then Done (zero, ch) else Blocks
  end.

Definition close {A : Type} (ch : chan A) : Outcome (chan A) :=
  if closed ch then Panics "close of closed channel"
  else Done {| capacity := capacity ch; queue := queue ch; closed := true |}.

(** ** Line scanners

    A [bufio.Scanner] is given by what its successive calls of [Scan] find:
    a token (with the error [Err] reports from then on, if the read failed
    behind it), or the end, clean or with an error. *)
Inductive ScanOutcome : Type :=
| Token (t : string) (e : option error)
| Final (e : option error).

Record Scanner : Type := {
  feed : list ScanOutcome;
  text : string;
  err : option error
}.

Definition NewScanner (pipe : list ScanOutcome) : Scanner :=
  {| feed := pipe; text := ""; err := None |}.

Definition Scan (s : Scanner) : bool * Scanner :=
  match feed s with
  | Token t e :: rest => (true, {| feed := rest; text := t; err := e |})
  | Final e :: _ => (false, {| feed := []; text := ""; err := e |})
  | [] => (false, {| feed := []; text := ""; err := err s |})
  end.

Definition Text (s : Scanner) : string := text s.
Definition Err (s : Scanner) : option error := err s.

(** ** The process and its surroundings *)

Record Credential : Type := { Uid : Z; Gid : Z }.
Record SysProcAttr : Type := { credential : option Credential }.

(** An [exec.Cmd]: its argument vector, its attributes, and whether its
    process was started.  Where the library looks for the file to run is
    its own matter; a launch that fails over it is a launch that fails. *)
Record Cmd : Type := {
  Args : list string;
  sysProcAttr : option SysProcAttr;
  Process : bool
}.

(** [exec.Command(name, arg...)]. *)
Definition Command (name : string) (arg : list string) : Cmd :=
  {| Args := name :: arg; sysProcAttr := None; Process := false |}.

(** What the child does once it runs: what the scanners of its two
    streams find, and what [cmd.Wait()] returns when it has exited. *)
Record Child : Type := {
  stdout : list ScanOutcome;
  stderr : list ScanOutcome;
  exit : option error
}.

(** What the operating system answers: the path [exec.LookPath] finds for
    a name, if it finds one; the failures of [StdoutPipe], of [StderrPipe]
    and of [cmd.Start()], if they fail; and the child that runs. *)
Record OS : Type := {
  lookPath : string -> option string;
  stdoutPipe : option error;
  stderrPipe : option error;
  startErr : option error;
  child : Child
}.

(** A child that was spawned: its command and the environment it
    inherited. *)
Record Spawned : Type := {
  image : Cmd;
  inherited : gmap string string
}.

Record World : Type := {
  osArgs : list string;
  environ : gmap string string;
  CurrentBinaryIsDockerMachine : bool;
  logged : list LogRecord;
  spawned : list Spawned;
  now : Z;
  os : OS
}.

Definition Getenv (key : string) (w : World) : string :=
  default "" (environ w !! key).

Definition Setenv (key value : string) (w : World) : World :=
  {| osArgs := osArgs w; environ := <[key := value]> (environ w);
     CurrentBinaryIsDockerMachine := CurrentBinaryIsDockerMachine w;
     logged := logged w; spawned := spawned w; now := now w; os := os w |}.

Definition logf (l : Level) (fmt : string) (a : list arg) (w : World) : World :=
  {| osArgs := osArgs w; environ := environ w;
     CurrentBinaryIsDockerMachine := CurrentBinaryIsDockerMachine w;
     logged := logged w ++ [{| level := l; format := fmt; args := a |}];
     spawned := spawned w; now := now w; os := os w |}.

Definition Debugf := logf DebugLevel.
Definition Infof := logf InfoLevel.
Definition Warnf := logf WarnLevel.

Definition spawn (c : Cmd) (w : World) : World :=
  {| osArgs := osArgs w; environ := environ w;
     CurrentBinaryIsDockerMachine := CurrentBinaryIsDockerMachine w;
     logged := logged w;
     spawned := spawned w ++ [{| image := c; inherited := environ w |}];
     now := now w; os := os w |}.

(** The clock after [d] nanoseconds. *)
Definition sleep (d : Z) (w : World) : World :=
  {| osArgs := osArgs w; environ := environ w;
     CurrentBinaryIsDockerMachine := CurrentBinaryIsDockerMachine w;
     logged := logged w; spawned := spawned w; now := now w + d;
     os := os w |}.

(** ** Constants and variables of the package *)

Definition second : Z := 1000000000.
Definition defaultTimeout : Z := 10 * second.

Definition CoreDrivers : list string :=
  [ "amazonec2"; "azure"; "digitalocean"; "exoscale"; "generic"; "google";
    "hyperv"; "none"; "openstack"; "rackspace"; "softlayer"; "virtualbox";
    "vmwarefusion"; "vmwarevcloudair"; "vmwarevsphere"; "pod"; "noop" ].

Definition pluginOut : string := "(%s) %s".
Definition pluginErr : string := "(%s) DBG | %s".
Definition PluginEnvKey : string := "MACHINE_PLUGIN_TOKEN".
Definition PluginEnvVal : string := "42".
Definition PluginEnvDriverName : string := "MACHINE_PLUGIN_DRIVER_NAME".
Definition PluginUID : string := "MACHINE_PLUGIN_UID".
Definition PluginGID : string := "MACHINE_PLUGIN_GID".

(** ** The executor *)

(** The interface [McnBinaryExecutor].  [Close] gives what the call returns
    once it does; when it returns is a matter of the scheduler. *)
Class McnBinaryExecutor (E : Type) : Type := {
  Start : E -> World -> (Scanner * Scanner + error) * E * World;
  Close : E -> World -> Outcome (option error)
}.

Record Executor : Type := {
  pluginStdout : option (list ScanOutcome);
  pluginStderr : option (list ScanOutcome);
  DriverName : string;
  cmd : option Cmd;
  binaryPath : string
}.

Definition setCmd (c : Cmd) (lbe : Executor) : Executor :=
  {| pluginStdout := pluginStdout lbe; pluginStderr := pluginStderr lbe;
     DriverName := DriverName lbe; cmd := Some c;
     binaryPath := binaryPath lbe |}.

Definition setPluginStdout (p : option (list ScanOutcome)) (lbe : Executor)
  : Executor :=
  {| pluginStdout := p; pluginStderr := pluginStderr lbe;
     DriverName := DriverName lbe; cmd := cmd lbe;
     binaryPath := binaryPath lbe |}.

Definition setPluginStderr (p : option (list ScanOutcome)) (lbe : Executor)
  : Executor :=
  {| pluginStdout := pluginStdout lbe; pluginStderr := p;
     DriverName := DriverName lbe; cmd := cmd lbe;
     binaryPath := binaryPath lbe |}.

Definition withCredential (uid gid : Z) (c : Cmd) : Cmd :=
  {| Args := Args c;
     sysProcAttr :=
       Some {| credential := Some {| Uid := uint32 uid; Gid := uint32 gid |} |};
     Process := Process c |}.

Definition started (c : Cmd) : Cmd :=
  {| Args := Args c; sysProcAttr := sysProcAttr c; Process := true |}.

(** [Start] of [Executor]. *)
Definition Executor_Start (lbe : Executor) (w : World)
  : (Scanner * Scanner + error) * Executor * World :=
  let w := Debugf "Launching plugin server for driver %s"
             [AString (DriverName lbe)] w in
  let cmd := Command (binaryPath lbe) (osArgs w) in
  let gid := Getenv PluginGID w in
  let uid := Getenv PluginUID w in
  let configured : Cmd + error :=
    if negb (uid =? "")%string && negb (gid =? "")%string then
      match Atoi uid with
      | inr err => inr (Errorf "error parsing user ID: %w" (AError err))
      | inl uid =>
          match Atoi gid with
          | inr err => inr (Errorf "error parsing group ID: %w" (AError err))
          | inl gid => inl (withCredential uid gid cmd)
          end
      end
    else inl cmd in
  match configured with
  | inr err => (inr err, lbe, w)
  | inl cmd =>
      let lbe := setCmd cmd lbe in
      match stdoutPipe (os w) with
      | Some err =>
          (inr (Errorf "Error getting cmd stdout pipe: %s" (AError err)),
           setPluginStdout None lbe, w)
      | None =>
          let lbe := setPluginStdout (Some (stdout (child (os w)))) lbe in
          match stderrPipe (os w) with
          | Some err =>
              (inr (Errorf "Error getting cmd stderr pipe: %s" (AError err)),
               setPluginStderr None lbe, w)
          | None =>
              let lbe := setPluginStderr (Some (stderr (child (os w)))) lbe in
              let outScanner := NewScanner (stdout (child (os w))) in
              let errScanner := NewScanner (stderr (child (os w))) in
              let w := Setenv PluginEnvKey PluginEnvVal w in
              let w := Setenv PluginEnvDriverName (DriverName lbe) w in
              match startErr (os w) with
              | Some err =>
                  (inr (Errorf "Error starting plugin binary: %s" (AError err)),
                   lbe, w)
              | None =>
                  (inl (outScanner, errScanner),
                   setCmd (started cmd) lbe, spawn (started cmd) w)
              end
          end
      end
  end.

(** [Close] of [Executor]: [cmd.Wait()] answers with the exit of
    the child, or that nothing was started. *)
Definition Wait (c : Cmd) (w : World) : option error :=
  if Process c then exit (child (os w))
  else Some (OSError "exec: not started").

Definition Executor_Close (lbe : Executor) (w : World) : Outcome (option error) :=
  match cmd lbe with
  | None => Panics "invalid memory address or nil pointer dereference"
  | Some c =>
      match Wait c w with
      | Some err =>
          Done (Some (Errorf "Error waiting for binary close: %s" (AError err)))
      | None => Done None
      end
  end.

#[global] Instance Executor_McnBinaryExecutor : McnBinaryExecutor Executor := {
  Start := Executor_Start;
  Close := Executor_Close
}.

(** ** The plugin *)

Record Plugin (E : Type) : Type := {
  executor : E;
  Addr : string;
  MachineName : string;
  addrCh : chan string;
  stopCh : chan bool;
  timeout : Z
}.
Arguments executor {E} p.
Arguments Addr {E} p.
Arguments MachineName {E} p.
Arguments addrCh {E} p.
Arguments stopCh {E} p.
Arguments timeout {E} p.

(** [func driverPath(driverName string) string]; [os.Args[0]] panics when
    the argument vector is empty. *)
Definition driverPath (driverName : string) (w : World) : Outcome string :=
  if existsb (fun coreDriver => (coreDriver =? driverName)%string) CoreDrivers
  then
    if CurrentBinaryIsDockerMachine w then
      match osArgs w with
      | arg0 :: _ => Done arg0
      | [] => Panics "index out of range [0] with length 0"
      end
    else Done "rancher-machine"
  else Done ("docker-machine-driver-" +:+ driverName).

(** [func NewPlugin(driverName string)], a plugin or an error. *)
Definition NewPlugin (driverName : string) (w : World)
  : Outcome ((Plugin Executor + error) * World) :=
  let '(dir, name) := Split driverName in
  path ← (if (dir =? "")%string then driverPath driverName w
          else Done driverName);
  match lookPath (os w) path with
  | None => Done (inr (ErrPluginBinaryNotFound name path), w)
  | Some binaryPath =>
      let w := Debugf "Found binary path at %s" [AString binaryPath] w in
      Done (inl {| stopCh := make bool 0;
                   addrCh := make string 1;
                   executor := {| pluginStdout := None; pluginStderr := None;
                                  DriverName := name; cmd := None;
                                  binaryPath := binaryPath |};
                   Addr := ""; MachineName := ""; timeout := 0 |},
            w)
  end.

Definition setAddr {E : Type} (a : string) (lbp : Plugin E) : Plugin E :=
  {| executor := executor lbp; Addr := a; MachineName := MachineName lbp;
     addrCh := addrCh lbp; stopCh := stopCh lbp; timeout := timeout lbp |}.

Definition setAddrCh {E : Type} (ch : chan string) (lbp : Plugin E) : Plugin E :=
  {| executor := executor lbp; Addr := Addr lbp; MachineName := MachineName lbp;
     addrCh := ch; stopCh := stopCh lbp; timeout := timeout lbp |}.

Definition setStopCh {E : Type} (ch : chan bool) (lbp : Plugin E) : Plugin E :=
  {| executor := executor lbp; Addr := Addr lbp; MachineName := MachineName lbp;
     addrCh := addrCh lbp; stopCh := ch; timeout := timeout lbp |}.

Definition setTimeout {E : Type} (t : Z) (lbp : Plugin E) : Plugin E :=
  {| executor := executor lbp; Addr := Addr lbp; MachineName := MachineName lbp;
     addrCh := addrCh lbp; stopCh := stopCh lbp; timeout := t |}.

Definition setExecutor {E : Type} (e : E) (lbp : Plugin E) : Plugin E :=
  {| executor := e; Addr := Addr lbp; MachineName := MachineName lbp;
     addrCh := addrCh lbp; stopCh := stopCh lbp; timeout := timeout lbp |}.

(** *** Address

    A call of [Address] that finds no cached address waits in a [select]
    on [addrCh] and on [time.After(lbp.timeout)].  What happens meanwhile is
    a [Race]: whether the send of the handshake reaches [addrCh], and how
    many nanoseconds after the call; and which case the runtime picks when
    both are ready at once. *)
Record Race : Type := {
  publishes : option (Z * string);
  tie : bool
}.

Inductive Selected : Type :=
| CaseAddr (v : string) (ch : chan string)
| CaseTimer.

(** The case that fires, and after how long.  The receive is ready at once
    when the channel holds a value or is closed, else when the send
    arrives; the timer is ready when its duration has passed. *)
Definition selectAddr (r : Race) (ch : chan string) (t : Z) : Selected * Z :=
  let timerAt := Z.max 0 t in
  let recvAt : option (Z * (string * chan string)) :=
    match recv "" ch with
    | Done got => Some (0, got)
    | _ =>
        match publishes r with
        | Some (d, v) => Some (Z.max 0 d, (v, ch))
        | None => None
        end
    end in
  match recvAt with
  | Some (d, (v, ch')) =>
      if (d <? timerAt) || ((d =? timerAt) && tie r)
      then (CaseAddr v ch', d)
      else (CaseTimer, timerAt)
  | None => (CaseTimer, timerAt)
  end.

(** [Address] of [Plugin]. *)
Definition Address {E : Type} (r : Race) (lbp : Plugin E) (w : World)
  : Outcome ((string * option error) * Plugin E * World) :=
  if (Addr lbp =? "")%string then
    let lbp :=
      if timeout lbp =? 0 then setTimeout defaultTimeout lbp else lbp in
    match selectAddr r (addrCh lbp) (timeout lbp) with
    | (CaseAddr v ch, waited) =>
        let lbp := setAddr v (setAddrCh ch lbp) in
        let w := Debugf "Plugin server listening at address %s"
                   [AString (Addr lbp)] (sleep waited w) in
        ch ← close (addrCh lbp);
        Done ((Addr lbp, None), setAddrCh ch lbp, w)
    | (CaseTimer, waited) =>
        Done (("", Some (Errorf "Failed to dial the plugin server in %s"
                           (ADuration (timeout lbp)))),
              lbp, sleep waited w)
    end
  else Done ((Addr lbp, None), lbp, w).

(** ** The goroutines

    The goroutine of [Serve], the two relays [AttachStream] starts and the
    callers of [Close] run together; each is followed from one channel
    operation to the next. *)

(** A relay, the goroutine of [stream] with its unbuffered channel: at
    [scanner.Scan()], at the send of a line, or past the loop. *)
Inductive Relay : Type :=
| Scanning (scanner : Scanner)
| Sending (line : string) (scanner : Scanner)
| Finished.

(** One turn of the loop of [stream], up to its send. *)
Definition stream (scanner : Scanner) (w : World) : Relay * World :=
  let '(more, scanner) := Scan scanner in
  if more then
    let line := Text scanner in
    let w := match Err scanner with
             | Some err => Warnf "Scanning stream: %s" [AError err] w
             | None => w
             end in
    (Sending (TrimNewlines line) scanner, w)
  else (Finished, w).

Definition AttachStream (scanner : Scanner) : Relay := Scanning scanner.

(** Where the goroutine of [execServer] stands. *)
Inductive Stage : Type :=
| AtStart
| AtPublish (addr : string) (outScanner errScanner : Scanner)
| AtSelect
| AtWait
| Returned (e : option error).

(** A call of [Close] of [Plugin]: parked at its send, or returned. *)
Inductive Closer : Type :=
| AtSend
| CloseReturned (e : option error).

Record Sys (E : Type) : Type := {
  plugin : Plugin E;
  world : World;
  serve : Stage;
  stdOutCh : option Relay;
  stdErrCh : option Relay;
  closers : list Closer
}.
Arguments plugin {E} s.
Arguments world {E} s.
Arguments serve {E} s.
Arguments stdOutCh {E} s.
Arguments stdErrCh {E} s.
Arguments closers {E} s.

Definition setServe {E : Type} (st : Stage) (s : Sys E) : Sys E :=
  {| plugin := plugin s; world := world s; serve := st;
     stdOutCh := stdOutCh s; stdErrCh := stdErrCh s; closers := closers s |}.

Definition setWorld {E : Type} (w : World) (s : Sys E) : Sys E :=
  {| plugin := plugin s; world := w; serve := serve s;
     stdOutCh := stdOutCh s; stdErrCh := stdErrCh s; closers := closers s |}.

Definition setPlugin {E : Type} (p : Plugin E) (s : Sys E) : Sys E :=
  {| plugin := p; world := world s; serve := serve s;
     stdOutCh := stdOutCh s; stdErrCh := stdErrCh s; closers := closers s |}.

Definition setStdOutCh {E : Type} (r : option Relay) (s : Sys E) : Sys E :=
  {| plugin := plugin s; world := world s; serve := serve s;
     stdOutCh := r; stdErrCh := stdErrCh s; closers := closers s |}.

Definition setStdErrCh {E : Type} (r : option Relay) (s : Sys E) : Sys E :=
  {| plugin := plugin s; world := world s; serve := serve s;
     stdOutCh := stdOutCh s; stdErrCh := r; closers := closers s |}.

Definition setClosers {E : Type} (cs : list Closer) (s : Sys E) : Sys E :=
  {| plugin := plugin s; world := world s; serve := serve s;
     stdOutCh := stdOutCh s; stdErrCh := stdErrCh s; closers := cs |}.

(** [Close] of [Plugin]: [lbp.stopCh <- true], then [return nil].  The send
    is over at once when the channel has room, and when the event loop
    takes the value from the parked sender ([taken]). *)
Definition Plugin_Close {E : Type} (taken : bool) (lbp : Plugin E)
  : Outcome (option error * Plugin E) :=
  lbp ← (if taken then Done lbp
         else ch ← send (stopCh lbp) true; Done (setStopCh ch lbp));
  Done (None, lbp).

Definition isParked (c : Closer) : bool :=
  match c with AtSend => true | CloseReturned _ => false end.

(** The first parked sender returns with [r]. *)
Fixpoint release (r : option error) (cs : list Closer) : list Closer :=
  match cs with
  | [] => []
  | AtSend :: cs' => CloseReturned r :: cs'
  | c :: cs' => c :: release r cs'
  end.

(** The case [<-lbp.stopCh] of the event loop: a buffered value (the first
    parked sender then moves into the buffer), the value of a parked
    sender, or the zero value of a closed channel. *)
Definition recvStop {E : Type} (s : Sys E) : Outcome (Sys E) :=
  let lbp := plugin s in
  let parked := existsb isParked (closers s) in
  match queue (stopCh lbp), parked with
  | [], false =>
      if closed (stopCh lbp) then Done s else Blocks
  | [], true =>
      '(r, lbp) ← Plugin_Close true lbp;
      Done (setClosers (release r (closers s)) (setPlugin lbp s))
  | _ :: rest, false =>
      Done (setPlugin
              (setStopCh {| capacity := capacity (stopCh lbp); queue := rest;
                            closed := closed (stopCh lbp) |} lbp) s)
  | _ :: rest, true =>
      '(r, lbp) ← Plugin_Close true lbp;
      Done (setClosers (release r (closers s))
              (setPlugin
                 (setStopCh {| capacity := capacity (stopCh lbp);
                               queue := rest ++ [true];
                               closed := closed (stopCh lbp) |} lbp) s))
  end.

(** The moves of the goroutine of [execServer]. *)
Inductive Turn : Type :=
| Proceed
| CaseOut
| CaseErr
| CaseStop
| WaitReturns.

(** [execServer] of [Plugin], from one blocking operation to the next. *)
Definition execServer {E : Type} `{McnBinaryExecutor E} (t : Turn) (s : Sys E)
  : Outcome (Sys E) :=
  let lbp := plugin s in
  match serve s, t with
  | AtStart, Proceed =>
      let '(res, ex, w) := Start (executor lbp) (world s) in
      let s := setWorld w (setPlugin (setExecutor ex lbp) s) in
      match res with
      | inr err => Done (setServe (Returned (Some err)) s)
      | inl (outScanner, errScanner) =>
          let '(_, outScanner) := Scan outScanner in
          let addr := Text outScanner in
          match Err outScanner with
          | Some err =>
              Done (setServe
                      (Returned (Some (Errorf "Reading plugin address failed: %s"
                                         (AError err)))) s)
          | None => Done (setServe (AtPublish addr outScanner errScanner) s)
          end
      end
  | AtPublish addr outScanner errScanner, Proceed =>
      ch ← send (addrCh lbp) (TrimSpace addr);
      Done (setServe AtSelect
              (setStdErrCh (Some (AttachStream errScanner))
                 (setStdOutCh (Some (AttachStream outScanner))
                    (setPlugin (setAddrCh ch lbp) s))))
  | AtSelect, CaseOut =>
      match stdOutCh s with
      | Some (Sending out scanner) =>
          Done (setStdOutCh (Some (Scanning scanner))
                  (setWorld (Infof pluginOut
                               [AString (MachineName lbp); AString out]
                               (world s)) s))
      | _ => Blocks
      end
  | AtSelect, CaseErr =>
      match stdErrCh s with
      | Some (Sending err scanner) =>
          Done (setStdErrCh (Some (Scanning scanner))
                  (setWorld (Debugf pluginErr
                               [AString (MachineName lbp); AString err]
                               (world s)) s))
      | _ => Blocks
      end
  | AtSelect, CaseStop =>
      s ← recvStop s;
      Done (setServe AtWait s)
  | AtWait, WaitReturns =>
      r ← Close (executor lbp) (world s);
      match r with
      | Some err =>
          Done (setServe
                  (Returned (Some (Errorf "Error closing local plugin binary: %s"
                                     (AError err)))) s)
      | None => Done (setServe (Returned None) s)
      end
  | _, _ => Blocks
  end.

(** [Serve] of [Plugin]. *)
Definition Serve {E : Type} `{McnBinaryExecutor E} (t : Turn) (s : Sys E)
  : Outcome (Sys E) :=
  execServer t s.

(** The scheduling choices. *)
Inductive Label : Type :=
| OfServe (t : Turn)
| ScanOut
| ScanErr
| CallClose.

Definition relayTurn (r : option Relay) (w : World)
  : Outcome (option Relay * World) :=
  match r with
  | Some (Scanning scanner) =>
      let '(r, w) := stream scanner w in Done (Some r, w)
  | _ => Blocks
  end.

Definition step {E : Type} `{McnBinaryExecutor E} (l : Label) (s : Sys E)
  : Outcome (Sys E) :=
  match l with
  | OfServe t => Serve t s
  | ScanOut =>
      '(r, w) ← relayTurn (stdOutCh s) (world s);
      Done (setStdOutCh r (setWorld w s))
  | ScanErr =>
      '(r, w) ← relayTurn (stdErrCh s) (world s);
      Done (setStdErrCh r (setWorld w s))
  | CallClose =>
      match Plugin_Close false (plugin s) with
      | Done (r, lbp) =>
          Done (setClosers (closers s ++ [CloseReturned r]) (setPlugin lbp s))
      | Blocks => Done (setClosers (closers s ++ [AtSend]) s)
      | Panics msg => Panics msg
      end
  end.

(** A schedule is run as far as it goes; a label that is not enabled stops
    the run. *)
Fixpoint run {E : Type} `{McnBinaryExecutor E} (ls : list Label) (s : Sys E)
  : Outcome (Sys E) :=
  match ls with
  | [] => Done s
  | l :: ls' => s' ← step l s; run ls' s'
  end.

(** The system around a plugin on which nothing was called yet. *)
Definition boot {E : Type} (lbp : Plugin E) (w : World) : Sys E :=
  {| plugin := lbp; world := w; serve := AtStart;
     stdOutCh := None; stdErrCh := None; closers := [] |}.

(** ** Scenarios *)

(** A system on which every binary is found and nothing fails, running
    [rancher-machine create -d foo]. *)
Definition answering (c : Child) : OS :=
  {| lookPath := fun path => Some ("/usr/local/bin/" +:+ path);
     stdoutPipe := None; stderrPipe := None; startErr := None; child := c |}.

Definition worldOf (env : gmap string string) (o : OS) : World :=
  {| osArgs := ["rancher-machine"; "create"; "-d"; "foo"];
     environ := env; CurrentBinaryIsDockerMachine := false;
     logged := []; spawned := []; now := 0; os := o |}.

(** The plugin [NewPlugin] makes for the driver [foo]. *)
Definition fooPlugin : Plugin Executor :=
  {| stopCh := make bool 0; addrCh := make string 1;
     executor := {| pluginStdout := None; pluginStderr := None;
                    DriverName := "foo"; cmd := None;
                    binaryPath := "/usr/local/bin/docker-machine-driver-foo" |};
     Addr := ""; MachineName := ""; timeout := 0 |}.

(** A child that closes its standard output without a word. *)
Definition muteChild : Child := {| stdout := []; stderr := []; exit := None |}.

(** A child that announces its address, logs on both streams, and exits
    with the given status. *)
Definition talkingChild (status : option error) : Child :=
  {| stdout := [Token " 127.0.0.1:41217 " None; Token "ready" None];
     stderr := [Token "debugging" None];
     exit := status |}.

Definition noRace : Race := {| publishes := None; tie := false |}.

(** A system on which no binary is found. *)
Definition bare : OS :=
  {| lookPath := fun _ => None;
     stdoutPipe := None; stderrPipe := None; startErr := None;
     child := muteChild |}.


(** The plugin once the handshake has sent an address. *)
Definition announced : Plugin Executor :=
  setAddrCh {| capacity := 1; queue := ["127.0.0.1:41217"]; closed := false |}
    fooPlugin.

(** A child that announces its address and exits with a failure. *)
Definition failingChild : Child := talkingChild (Some (OSError "exit status 1")).

(** A call of [Close], the signal taken by the event loop, the child
    exiting. *)
Definition shutdown : list Label :=
  [CallClose; OfServe CaseStop; OfServe WaitReturns].

(** ** Invariants *)

(** Every call of [Close] that returned, returned [nil]. *)
Definition nilReturns (cs : list Closer) : Prop :=
  forall e : option error, In (CloseReturned e) cs -> e = None.


(** ** What the event loop relays *)

(** The lines [stream] sends for what its scanner has yet to find: the
    tokens up to the first [Scan] that returns false, each trimmed of its
    newlines. *)
Fixpoint relayed (feed : list ScanOutcome) : list string :=
  match feed with
  | Token t _ :: rest => TrimNewlines t :: relayed rest
  | _ => []
  end.

(** The lines a relay has yet to hand to the event loop. *)
Definition pendingLines (r : option Relay) : list string :=
  match r with
  | Some (Scanning scanner) => relayed (feed scanner)
  | Some (Sending line scanner) => line :: relayed (feed scanner)
  | _ => []
  end.

Definition sameLevel (a b : Level) : bool :=
  match a, b with
  | DebugLevel, DebugLevel | InfoLevel, InfoLevel | WarnLevel, WarnLevel => true
  | _, _ => false
  end.

(** The machine name and the line of a record written at level [l] with
    the format [fmt] of the event loop. *)
Definition entry (l : Level) (fmt : string) (r : LogRecord)
  : option (string * string) :=
  match args r with
  | [AString machine; AString line] =>
      if sameLevel (level r) l && (format r =? fmt)%string
      then Some (machine, line) else None
  | _ => None
  end.

(** What a log holds of one stream, in the order it was written. *)
Definition tagged (l : Level) (fmt : string) (log : list LogRecord)
  : list (string * string) :=
  omap (entry l fmt) log.

(** The event loop was reached. *)
Definition serving {E : Type} (s : Sys E) : bool :=
  match serve s with
  | AtSelect | AtWait | Returned _ => true
  | _ => false
  end.

(** The event loop was left. *)
Definition stopped {E : Type} (s : Sys E) : bool :=
  match serve s with
  | AtWait | Returned _ => true
  | _ => false
  end.

(** The calls of [Close] that returned. *)
Definition returned (cs : list Closer) : list Closer :=
  List.filter (fun c => negb (isParked c)) cs.

(** The stop channel is the one [NewPlugin] makes, and no call of [Close]
    has returned unless the event loop was left, one at most if it was. *)
Definition oneStop {E : Type} (s : Sys E) : Prop :=
  stopCh (plugin s) = make bool 0
  /\ (length (returned (closers s)) <= if stopped s then 1 else 0)%nat.

(** The book of one stream: what the log holds of it, then the lines its
    relay has yet to deliver under the name of the machine. *)
Definition book {E : Type} (l : Level) (fmt : string)
    (relay : Sys E -> option Relay) (s : Sys E) : list (string * string) :=
  (tagged l fmt (logged (world s))
   ++ map (pair (MachineName (plugin s))) (pendingLines (relay s)))%list.

Definition outBook {E : Type} : Sys E -> list (string * string) :=
  book InfoLevel pluginOut stdOutCh.

Definition errBook {E : Type} : Sys E -> list (string * string) :=
  book DebugLevel pluginErr stdErrCh.

(** The plugin for the driver [foo], told the name of its machine. *)
Definition devPlugin : Plugin Executor :=
  {| stopCh := make bool 0; addrCh := make string 1;
     executor := executor fooPlugin;
     Addr := ""; MachineName := "dev"; timeout := 0 |}.

(** A child whose standard output breaks in the middle of its first
    line. *)
Definition brokenChild : Child :=
  {| stdout := [Token "127.0.0" (Some (OSError "read |0: input/output error"))];
     stderr := []; exit := None |}.

(** An environment that asks for an identity that is no number. *)
Definition badIdentity : gmap string string :=
  <[PluginUID := "root"]> (<[PluginGID := "0"]> ∅).

(** The relays scan and the event loop takes a line of each stream. *)
Definition relaying : list Label :=
  [ScanOut; OfServe CaseOut; ScanErr; OfServe CaseErr].

(** The stop channel is the one [NewPlugin] makes; no call of [Close] has
    returned while [execServer] runs up to its event loop and in it, and
    exactly one has when it waits for the child or has returned [nil]. *)
Definition stopServed {E : Type} (s : Sys E) : Prop :=
  stopCh (plugin s) = make bool 0
  /\ match serve s with
     | AtStart | AtPublish _ _ _ | AtSelect => returned (closers s) = []
     | AtWait | Returned None => length (returned (closers s)) = 1%nat
     | Returned (Some _) => True
     end.

(** ** Properties *)

Example NewPlugin_foo :
  NewPlugin "foo" (worldOf ∅ (answering muteChild))
  = Done (inl fooPlugin,
          Debugf "Found binary path at %s"
            [AString "/usr/local/bin/docker-machine-driver-foo"]
            (worldOf ∅ (answering muteChild))).
Proof. reflexivity. Qed.

Example TrimSpace_address : TrimSpace "  127.0.0.1:41217 " = "127.0.0.1:41217".
Proof. reflexivity. Qed.

Example TrimSpace_nbsp :
  TrimSpace (str (map byte [194; 160; 97; 226; 128; 137; 10]%nat)) = "a".
Proof. reflexivity. Qed.

Example Atoi_samples :
  Atoi "1000" = inl 1000 /\ Atoi "-1" = inl (-1) /\ Atoi "+7" = inl 7
  /\ Atoi "" = inr (NumError "Atoi" "") /\ Atoi "12a" = inr (NumError "Atoi" "12a")
  /\ Atoi "-" = inr (NumError "Atoi" "-")
  /\ Atoi "9223372036854775807" = inl 9223372036854775807
  /\ Atoi "9223372036854775808" = inr (NumError "Atoi" "9223372036854775808")
  /\ Atoi "-9223372036854775808" = inl (-9223372036854775808).
Proof. repeat split; reflexivity. Qed.

Example Split_samples :
  Split "foo" = ("", "foo") /\ Split "/opt/drivers/foo" = ("/opt/drivers/", "foo")
  /\ Split "./foo" = ("./", "foo") /\ Split "foo/" = ("foo/", "").
Proof. repeat split; reflexivity. Qed.

(** *** Channels and the select of Address *)

Lemma send_make (A : Type) (n : nat) (v : A) :
  send (make A (S n)) v
  = Done {| capacity := S n; queue := [v]; closed := false |}.
Proof. reflexivity. Qed.

Lemma recv_buffered (A : Type) (zero v : A) (ch : chan A) (rest : list A) :
  queue ch = v :: rest ->
  recv zero ch
  = Done (v, {| capacity := capacity ch; queue := rest; closed := closed ch |}).
Proof. intros Hq. unfold recv. now rewrite Hq. Qed.

Lemma recv_empty_open (A : Type) (zero : A) (ch : chan A) :
  queue ch = [] -> closed ch = false -> recv zero ch = Blocks.
Proof. intros Hq Hc. unfold recv. now rewrite Hq, Hc. Qed.

(** The select never waits longer than its timer, whatever the race. *)
Lemma selectAddr_wait (r : Race) (ch : chan string) (t : Z) :
  0 <= snd (selectAddr r ch t) <= Z.max 0 t.
Proof.
  unfold selectAddr.
  destruct (recv "" ch) as [[v ch']| |msg];
    [|destruct (publishes r) as [[d v]|]..]; cbn [snd];
    try lia;
    match goal with
    | |- context [if ?b then _ else _] => destruct b eqn:Hb
    end; cbn [snd]; try lia;
    apply orb_true_iff in Hb; destruct Hb as [Hb|Hb];
    try (apply Z.ltb_lt in Hb; lia);
    apply andb_true_iff in Hb; destruct Hb as [Hb _];
    apply Z.eqb_eq in Hb; lia.
Qed.

(** A value that waits in the channel wins against a timer yet to run. *)
Lemma selectAddr_buffered (r : Race) (ch : chan string) (t : Z) (v : string)
    (rest : list string) :
  queue ch = v :: rest -> 0 < t ->
  selectAddr r ch t
  = (CaseAddr v {| capacity := capacity ch; queue := rest; closed := closed ch |},
     0).
Proof.
  intros Hq Ht. unfold selectAddr. rewrite (recv_buffered _ _ _ _ _ Hq).
  replace (Z.max 0 t) with t by lia.
  replace (0 <? t) with true by (symmetry; apply Z.ltb_lt; lia).
  reflexivity.
Qed.

(** On an empty open channel the send that arrives before the timer is
    received, and the channel is as before. *)
Lemma selectAddr_arrival (b : bool) (ch : chan string) (t d : Z) (v : string) :
  queue ch = [] -> closed ch = false -> 0 <= d < t ->
  selectAddr {| publishes := Some (d, v); tie := b |} ch t = (CaseAddr v ch, d).
Proof.
  intros Hq Hc Hd. unfold selectAddr. rewrite (recv_empty_open _ _ _ Hq Hc).
  cbn [publishes tie]. replace (Z.max 0 d) with d by lia.
  replace (Z.max 0 t) with t by lia.
  replace (d <? t) with true by (symmetry; apply Z.ltb_lt; lia).
  reflexivity.
Qed.

(** With nothing to receive in time the timer fires, at its duration. *)
Lemma selectAddr_timer (r : Race) (ch : chan string) (t : Z) :
  queue ch = [] -> closed ch = false -> 0 <= t ->
  match publishes r with
  | Some (d, _) => t < d \/ (t = Z.max 0 d /\ tie r = false)
  | None => True
  end ->
  selectAddr r ch t = (CaseTimer, t).
Proof.
  intros Hq Hc Ht Hr. unfold selectAddr. rewrite (recv_empty_open _ _ _ Hq Hc).
  replace (Z.max 0 t) with t by lia.
  destruct (publishes r) as [[d v]|]; [|reflexivity].
  destruct Hr as [Hlate|[Heq Htie]].
  - replace (Z.max 0 d <? t) with false by (symmetry; apply Z.ltb_ge; lia).
    replace (Z.max 0 d =? t) with false by (symmetry; apply Z.eqb_neq; lia).
    reflexivity.
  - rewrite Htie, <- Heq, Z.ltb_irrefl, andb_false_r. reflexivity.
Qed.

Lemma Address_cached (E : Type) (r : Race) (lbp : Plugin E) (w : World) :
  Addr lbp <> "" -> Address r lbp w = Done ((Addr lbp, None), lbp, w).
Proof.
  intros Hne. unfold Address.
  destruct (String.eqb_spec (Addr lbp) ""); [contradiction|reflexivity].
Qed.

(** The timeout a call of [Address] waits with. *)
Lemma Address_uncached (E : Type) (r : Race) (lbp : Plugin E) (w : World) :
  Addr lbp = "" ->
  let t := if timeout lbp =? 0 then defaultTimeout else timeout lbp in
  Address r lbp w
  = match selectAddr r (addrCh lbp) t with
    | (CaseAddr v ch, waited) =>
        ch' ← close ch;
        Done ((v, None), setAddrCh ch' (setAddr v (setAddrCh ch (setTimeout t lbp))),
              Debugf "Plugin server listening at address %s" [AString v]
                (sleep waited w))
    | (CaseTimer, waited) =>
        Done (("", Some (Errorf "Failed to dial the plugin server in %s"
                           (ADuration t))),
              setTimeout t lbp, sleep waited w)
    end.
Proof.
  intros Hempty t. unfold Address. rewrite Hempty. simpl. subst t.
  destruct (Z.eqb_spec (timeout lbp) 0) as [Hz|Hnz].
  - reflexivity.
  - assert (Hid : setTimeout (timeout lbp) lbp = lbp) by (now destruct lbp).
    rewrite Hid. reflexivity.
Qed.

(** *** The handshake *)

Section Handshake.

Context {E : Type} `{McnBinaryExecutor E}.

(** A failure of [Start] is what [Serve] returns, and nothing is sent. *)
Lemma Serve_start_failure (s : Sys E) (e : error) (ex : E) (w : World) :
  serve s = AtStart ->
  Start (executor (plugin s)) (world s) = (inr e, ex, w) ->
  exists s', Serve Proceed s = Done s'
             /\ serve s' = Returned (Some e)
             /\ addrCh (plugin s') = addrCh (plugin s).
Proof.
  intros Hst HS. unfold Serve, execServer. rewrite Hst, HS.
  eexists. split; [reflexivity|]. split; reflexivity.
Qed.

(** After [Start] the first [Scan] decides: an error of the scanner ends
    [Serve]; anything else goes on to the send, with the text of the
    scanner, a token or not. *)
Lemma Serve_first_scan (s : Sys E) (outScanner errScanner : Scanner) (ex : E)
    (w : World) :
  serve s = AtStart ->
  Start (executor (plugin s)) (world s) = (inl (outScanner, errScanner), ex, w) ->
  Serve Proceed s
  = Done (setServe
            match Err (snd (Scan outScanner)) with
            | Some err =>
                Returned (Some (Errorf "Reading plugin address failed: %s"
                                  (AError err)))
            | None =>
                AtPublish (Text (snd (Scan outScanner))) (snd (Scan outScanner))
                  errScanner
            end
            (setWorld w (setPlugin (setExecutor ex (plugin s)) s))).
Proof.
  intros Hst HS. unfold Serve, execServer. rewrite Hst, HS.
  destruct (Scan outScanner) as [more sc]. cbn [snd].
  destruct (Err sc); reflexivity.
Qed.

(** A scanner that fails before its first line: [Serve] returns the
    handshake failure and the address channel is as it was. *)
Lemma Serve_scan_error (s : Sys E) (outScanner errScanner : Scanner) (ex : E)
    (w : World) (e : error) :
  serve s = AtStart ->
  Start (executor (plugin s)) (world s) = (inl (outScanner, errScanner), ex, w) ->
  Err (snd (Scan outScanner)) = Some e ->
  exists s', Serve Proceed s = Done s'
             /\ serve s' = Returned (Some (Errorf "Reading plugin address failed: %s"
                                             (AError e)))
             /\ addrCh (plugin s') = addrCh (plugin s).
Proof.
  intros Hst HS He. rewrite (Serve_first_scan _ _ _ _ _ Hst HS), He.
  eexists. split; [reflexivity|]. split; reflexivity.
Qed.

(** A scanner at the end of its input without an error: [Serve] does not
    return, it goes on to send the empty text. *)
Lemma Serve_scan_exhausted (s : Sys E) (outScanner errScanner : Scanner)
    (ex : E) (w : World) :
  serve s = AtStart ->
  Start (executor (plugin s)) (world s) = (inl (outScanner, errScanner), ex, w) ->
  feed outScanner = [] -> err outScanner = None ->
  exists s', Serve Proceed s = Done s'
             /\ serve s' = AtPublish "" (snd (Scan outScanner)) errScanner.
Proof.
  intros Hst HS Hfeed Herr. rewrite (Serve_first_scan _ _ _ _ _ Hst HS).
  unfold Scan. rewrite Hfeed, Herr. cbn.
  eexists. split; reflexivity.
Qed.

(** C2.  For a child that started and whose standard output gives a first
    line, [Serve] reads that one line and no more, sends the line trimmed
    of surrounding white space to the address channel, and hands the rest
    of the output to the relay.  [Address] then returns exactly the trimmed
    line, without an error: at once when it is called after the send, and
    after the [d] nanoseconds the send takes to arrive when it was called
    before and [d] is within its timeout. *)
Theorem Serve_publishes_trimmed_first_line (s : Sys E)
    (outScanner errScanner : Scanner) (ex : E) (w : World) (line : string)
    (rest : list ScanOutcome) :
  serve s = AtStart ->
  Start (executor (plugin s)) (world s) = (inl (outScanner, errScanner), ex, w) ->
  feed outScanner = Token line None :: rest ->
  addrCh (plugin s) = make string 1 ->
  Addr (plugin s) = "" ->
  0 <= timeout (plugin s) ->
  let t := if timeout (plugin s) =? 0 then defaultTimeout
           else timeout (plugin s) in
  exists (s1 s2 : Sys E) (outScanner' : Scanner),
    Serve Proceed s = Done s1
    /\ serve s1 = AtPublish line outScanner' errScanner
    /\ feed outScanner' = rest
    /\ addrCh (plugin s1) = make string 1
    /\ Serve Proceed s1 = Done s2
    /\ serve s2 = AtSelect
    /\ addrCh (plugin s2)
       = {| capacity := 1; queue := [TrimSpace line]; closed := false |}
    /\ stdOutCh s2 = Some (Scanning outScanner')
    /\ stdErrCh s2 = Some (Scanning errScanner)
    /\ (forall (r : Race) (w0 : World),
          exists lbp' w',
            Address r (plugin s2) w0 = Done ((TrimSpace line, None), lbp', w')
            /\ now w' = now w0)
    /\ (forall (b : bool) (d : Z) (w0 : World),
          0 <= d < t ->
          exists lbp' w',
            Address {| publishes := Some (d, TrimSpace line); tie := b |}
              (plugin s1) w0
            = Done ((TrimSpace line, None), lbp', w')
            /\ now w' = now w0 + d).
Proof.
  intros Hst HS Hfeed Hch Haddr Ht t.
  assert (Htpos : 0 < t).
  { subst t. destruct (Z.eqb_spec (timeout (plugin s)) 0); [reflexivity|lia]. }
  pose proof (Serve_first_scan _ _ _ _ _ Hst HS) as H1.
  unfold Scan in H1. rewrite Hfeed in H1. cbn in H1.
  eexists _, _, _. split; [exact H1|].
  split; [reflexivity|]. split; [reflexivity|]. split; [exact Hch|].
  split.
  { unfold Serve, execServer. cbn. rewrite Hch. cbn. reflexivity. }
  split; [reflexivity|]. split; [reflexivity|].
  split; [reflexivity|]. split; [reflexivity|]. split.
  - intros r w0. rewrite Address_uncached by exact Haddr.
    cbn -[selectAddr Z.eqb defaultTimeout]. fold t.
    rewrite (selectAddr_buffered _ _ _ (TrimSpace line) [])
      by (reflexivity || exact Htpos).
    cbn. eexists _, _. split; [reflexivity|]. cbn. lia.
  - intros b d w0 Hd. rewrite Address_uncached by exact Haddr.
    cbn -[selectAddr Z.eqb defaultTimeout]. fold t. rewrite Hch.
    rewrite selectAddr_arrival by (reflexivity || exact Hd).
    cbn. eexists _, _. split; [reflexivity|]. reflexivity.
Qed.

End Handshake.

Lemma Serve_publishes_trimmed_first_line_witness :
  exists s2 : Sys Executor,
    run [OfServe Proceed; OfServe Proceed]
      (boot fooPlugin (worldOf ∅ (answering (talkingChild None)))) = Done s2
    /\ queue (addrCh (plugin s2)) = ["127.0.0.1:41217"]
    /\ exists lbp' w',
         Address noRace (plugin s2) (world s2)
         = Done (("127.0.0.1:41217", None), lbp', w').
Proof.
  edestruct (Serve_publishes_trimmed_first_line
               (boot fooPlugin (worldOf ∅ (answering (talkingChild None)))))
    as (s1 & s2 & o & H1 & _ & _ & _ & H2 & _ & Hch & _ & _ & Hafter & _);
    [reflexivity | vm_compute; reflexivity | reflexivity | reflexivity
    | reflexivity | cbn; lia |].
  exists s2. split.
  { cbn [run]. change (step (OfServe Proceed)) with (@Serve Executor _ Proceed).
    rewrite H1. cbn [mbind Outcome_bind].
    change (step (OfServe Proceed)) with (@Serve Executor _ Proceed).
    rewrite H2. reflexivity. }
  split.
  { rewrite Hch. reflexivity. }
  destruct (Hafter noRace (world s2)) as (lbp' & w' & HA & _).
  exists lbp', w'. exact HA.
Defined.

(** C1.  On a child that closes its standard output before a first line,
    without an error of the scanner, [execServer] does not return: the
    result of [Scan], which the loop of [stream] checks, is dropped here,
    the empty text is sent to the address channel as if it were the
    address, and the event loop is entered. *)
Theorem Serve_exhausted_stdout_publishes_empty_address :
  exists s : Sys Executor,
    run [OfServe Proceed; OfServe Proceed]
      (boot fooPlugin (worldOf ∅ (answering muteChild))) = Done s
    /\ serve s = AtSelect
    /\ addrCh (plugin s) = {| capacity := 1; queue := [""]; closed := false |}
    /\ exists lbp' w',
         Address noRace (plugin s) (world s) = Done (("", None), lbp', w').
Proof.
  eexists. split; [vm_compute; reflexivity|].
  split; [reflexivity|]. split; [reflexivity|].
  eexists _, _. vm_compute. reflexivity.
Qed.

(** *** The launch of the child *)

Lemma eqb_empty_false (s : string) : s <> "" -> (s =? "")%string = false.
Proof. intros Hne. now apply String.eqb_neq. Qed.


(** Case analysis on what the operating system answers to [Start]. *)
Ltac start_cases :=
  repeat match goal with
  | |- context [match stdoutPipe ?o with _ => _ end] =>
      destruct (stdoutPipe o) eqn:?
  | |- context [match stderrPipe ?o with _ => _ end] =>
      destruct (stderrPipe o) eqn:?
  | |- context [match startErr ?o with _ => _ end] =>
      destruct (startErr o) eqn:?
  end.



Lemma eqb_empty_one (uid gid : string) :
  (uid = "" /\ gid <> "") \/ (uid <> "" /\ gid = "") ->
  negb (uid =? "")%string && negb (gid =? "")%string = false.
Proof.
  intros [[-> _]|[_ ->]]; [reflexivity|].
  rewrite String.eqb_refl. apply andb_false_r.
Qed.

(** C4.  With exactly one of the two identity variables set the code
    ignores both: whatever the value of the one that is set, even one that
    is no integer, the command gets no credential, the child that is
    spawned runs with none, the only errors [Start] can return are those of
    the pipes and of the launch, and result and executor are those of a
    launch from an environment with neither variable set. *)
Theorem Start_ignores_lone_identity_variable (lbe : Executor) (w : World) :
  (Getenv PluginUID w = "" /\ Getenv PluginGID w <> "")
  \/ (Getenv PluginUID w <> "" /\ Getenv PluginGID w = "") ->
  let '(res, lbe', w') := Executor_Start lbe w in
  (exists c, cmd lbe' = Some c /\ sysProcAttr c = None)
  /\ match res with
     | inl _ =>
         exists c,
           spawned w'
           = (spawned w ++ [{| image := c; inherited := environ w' |}])%list
           /\ sysProcAttr c = None
     | inr e =>
         spawned w' = spawned w
         /\ exists e',
              e = Errorf "Error getting cmd stdout pipe: %s" (AError e')
              \/ e = Errorf "Error getting cmd stderr pipe: %s" (AError e')
              \/ e = Errorf "Error starting plugin binary: %s" (AError e')
     end
  /\ forall w0 : World,
       osArgs w0 = osArgs w -> os w0 = os w ->
       Getenv PluginUID w0 = "" -> Getenv PluginGID w0 = "" ->
       fst (Executor_Start lbe w0) = (res, lbe').
Proof.
  intros Hone. unfold Executor_Start.
  change (Getenv PluginGID (Debugf _ _ w)) with (Getenv PluginGID w).
  change (Getenv PluginUID (Debugf _ _ w)) with (Getenv PluginUID w).
  rewrite (eqb_empty_one _ _ Hone). cbn [os osArgs Debugf logf Setenv].
  start_cases; cbn.
  all: split; [eexists; split; reflexivity|].
  all: split;
    [first [ eexists; split; reflexivity
           | split; [reflexivity|]; eexists; eauto ]|].
  all: intros w0 Hargs Hos Hu0 Hg0;
    change (Getenv PluginGID (Debugf "Launching plugin server for driver %s"
                                [AString (DriverName lbe)] w0))
      with (Getenv PluginGID w0);
    change (Getenv PluginUID (Debugf "Launching plugin server for driver %s"
                                [AString (DriverName lbe)] w0))
      with (Getenv PluginUID w0);
    rewrite Hu0, Hg0; cbn [os osArgs Debugf logf Setenv String.eqb negb andb];
    rewrite Hos, Hargs;
    repeat match goal with H : _ = _ |- _ => rewrite H end; reflexivity.
Qed.

Lemma Start_ignores_lone_identity_variable_witness :
  (exists c,
     cmd (snd (fst (Executor_Start (executor fooPlugin)
                      (worldOf (<[PluginUID := "root"]> ∅) (answering muteChild)))))
     = Some c
     /\ sysProcAttr c = None)
  /\ fst (fst (Executor_Start (executor fooPlugin)
                 (worldOf (<[PluginUID := "root"]> ∅) (answering muteChild))))
     = fst (fst (Executor_Start (executor fooPlugin)
                   (worldOf ∅ (answering muteChild)))).
Proof.
  pose proof (Start_ignores_lone_identity_variable (executor fooPlugin)
                (worldOf (<[PluginUID := "root"]> ∅) (answering muteChild))) as HS.
  remember (Executor_Start _ (worldOf (<[PluginUID := "root"]> ∅) _)) as run
    eqn:Hrun in *.
  destruct run as [[res lbe'] w'].
  specialize (HS ltac:(right; split; [vm_compute; discriminate|reflexivity])).
  destruct HS as (Hc & _ & Hsame). split; [exact Hc|].
  rewrite (Hsame (worldOf ∅ (answering muteChild)))
    by (vm_compute; reflexivity).
  reflexivity.
Defined.

(** C8, as the code has it.  The argument vector of the child that [Start]
    spawns is the resolved binary path followed by the whole argument vector
    of the supervisor, its [argv[0]] included: nothing of the supervisor's
    vector is replaced. *)
Theorem Start_passes_whole_argument_vector (lbe lbe' : Executor) (w w' : World)
    (scanners : Scanner * Scanner) :
  Executor_Start lbe w = (inl scanners, lbe', w') ->
  exists c,
    spawned w' = (spawned w ++ [{| image := c; inherited := environ w' |}])%list
    /\ cmd lbe' = Some c
    /\ Args c = binaryPath lbe :: osArgs w
    /\ (forall i arg, osArgs w !! i = Some arg -> Args c !! S i = Some arg).
Proof.
  unfold Executor_Start.
  destruct (negb _ && negb _);
    [destruct (Atoi _) as [uid|e]; [destruct (Atoi _) as [gid|e]|]|];
    cbn [os osArgs Debugf logf Setenv]; start_cases; intros Hrun;
    try discriminate Hrun; injection Hrun as <- <- <-;
    eexists; (split; [reflexivity|]); (split; [reflexivity|]);
    (split; [reflexivity|]); intros i arg Hi; exact Hi.
Qed.

Lemma Start_passes_whole_argument_vector_witness :
  exists c w',
    spawned w' = [{| image := c; inherited := environ w' |}]
    /\ Args c
       = ["/usr/local/bin/docker-machine-driver-foo";
          "rancher-machine"; "create"; "-d"; "foo"].
Proof.
  edestruct Start_passes_whole_argument_vector
    with (lbe := executor fooPlugin) (w := worldOf ∅ (answering muteChild))
    as (c & Hsp & _ & Hargs & _); [vm_compute; reflexivity|].
  eexists c, _. split; [exact Hsp|exact Hargs].
Defined.

(** C8, as it is stated, at [rancher-machine create -d foo]: the child is
    not given the vector of the supervisor with its first entry replaced by
    the binary path; it is given one entry more, and finds the name of the
    supervisor where the supervisor found [create]. *)
Lemma Start_does_not_replace_argv0 :
  let w := worldOf ∅ (answering muteChild) in
  let lbe := executor fooPlugin in
  exists c,
    map image (spawned (snd (Executor_Start lbe w))) = [c]
    /\ Args c <> binaryPath lbe :: tail (osArgs w)
    /\ length (Args c) = S (length (osArgs w))
    /\ Args c !! 1%nat = Some "rancher-machine"
    /\ osArgs w !! 1%nat = Some "create".
Proof.
  eexists. split; [vm_compute; reflexivity|].
  split; [discriminate|]. repeat split.
Qed.

(** *** Resolution of the binary *)

Lemma splitLast_no_dir (s f : list ascii) : splitLast s = ([], f) -> f = s.
Proof.
  revert f. induction s as [|c s IH]; intros f; cbn.
  - now intros [= <-].
  - destruct (splitLast s) as [d f'] eqn:Hs. destruct d as [|a d].
    + destruct (isSlash c); [discriminate|].
      intros [= <-]. now rewrite (IH f' eq_refl).
    + discriminate.
Qed.

Lemma Split_no_dir (path : string) :
  fst (Split path) = "" -> snd (Split path) = path.
Proof.
  unfold Split. destruct (splitLast (bytes path)) as [d f] eqn:Hs. cbn.
  destruct d as [|a d]; [|discriminate]. intros _.
  rewrite (splitLast_no_dir _ _ Hs). apply string_of_list_ascii_of_string.
Qed.

(** The directory and the file of [Split] make up the path. *)
Lemma splitLast_app (s : list ascii) :
  (fst (splitLast s) ++ snd (splitLast s))%list = s.
Proof.
  induction s as [|c s IH]; [reflexivity|]. cbn.
  destruct (splitLast s) as [d f]. cbn in IH. destruct d as [|a d].
  - destruct (isSlash c); cbn; now rewrite <- IH.
  - cbn. now rewrite <- IH.
Qed.

(** C9, as the code has it.  When the binary is not found, [NewPlugin]
    returns [ErrPluginBinaryNotFound] with the path that was searched and
    with the file name of the requested driver: the requested name itself
    when it has no directory, its last component when it is a path.  The
    world is as before: nothing is spawned. *)
Theorem NewPlugin_binary_not_found (driverName path : string) (w : World) :
  (if (fst (Split driverName) =? "")%string then driverPath driverName w
   else Done driverName) = Done path ->
  lookPath (os w) path = None ->
  NewPlugin driverName w
  = Done (inr (ErrPluginBinaryNotFound (snd (Split driverName)) path), w)
  /\ (fst (Split driverName) = "" -> snd (Split driverName) = driverName)
  /\ (fst (Split driverName) <> "" -> path = driverName).
Proof.
  intros Hpath Hlook. split; [|split].
  - unfold NewPlugin. destruct (Split driverName) as [dir name]. cbn in *.
    rewrite Hpath. cbn. now rewrite Hlook.
  - apply Split_no_dir.
  - intros Hdir. rewrite (eqb_empty_false _ Hdir) in Hpath. now injection Hpath.
Qed.

Lemma NewPlugin_binary_not_found_witness :
  NewPlugin "foo" (worldOf ∅ bare)
  = Done (inr (ErrPluginBinaryNotFound "foo" "docker-machine-driver-foo"),
          worldOf ∅ bare).
Proof.
  destruct (NewPlugin_binary_not_found "foo" "docker-machine-driver-foo"
              (worldOf ∅ bare) eq_refl eq_refl) as (Hnew & _).
  exact Hnew.
Defined.

(** C9, as it is stated, at a driver given by its path: the error does not
    carry the name that was requested, it carries its last component. *)
Lemma NewPlugin_error_drops_directory :
  NewPlugin "/opt/drivers/foo" (worldOf ∅ bare)
  = Done (inr (ErrPluginBinaryNotFound "foo" "/opt/drivers/foo"),
          worldOf ∅ bare)
  /\ NewPlugin "/opt/drivers/foo" (worldOf ∅ bare)
     <> Done (inr (ErrPluginBinaryNotFound "/opt/drivers/foo" "/opt/drivers/foo"),
              worldOf ∅ bare).
Proof. split; [reflexivity|discriminate]. Qed.

(** *** Address *)

(** C5.  A call of [Address] before the address is published returns after
    at most the configured timeout, ten seconds when the field is unset.
    When nothing is published by then, it returns the error that names this
    duration, having waited exactly that long; address and channel are as
    they were, the channel open, and a call made after the handshake has
    sent the address returns it. *)
Theorem Address_timeout (E : Type) (r : Race) (lbp : Plugin E) (w : World) :
  Addr lbp = "" ->
  queue (addrCh lbp) = [] ->
  closed (addrCh lbp) = false ->
  0 <= timeout lbp ->
  let t := if timeout lbp =? 0 then defaultTimeout else timeout lbp in
  (timeout lbp = 0 -> t = 10 * 1000000000)
  /\ (exists res lbp' w',
        Address r lbp w = Done (res, lbp', w')
        /\ now w <= now w' <= now w + t)
  /\ (match publishes r with
      | Some (d, _) => t < d \/ (t = Z.max 0 d /\ tie r = false)
      | None => True
      end ->
      exists lbp',
        Address r lbp w
        = Done (("", Some (Errorf "Failed to dial the plugin server in %s"
                             (ADuration t))),
                lbp', sleep t w)
        /\ Addr lbp' = ""
        /\ addrCh lbp' = addrCh lbp
        /\ forall (v : string) (ch : chan string) (r2 : Race) (w2 : World),
             send (addrCh lbp') v = Done ch ->
             exists lbp'' w'',
               Address r2 (setAddrCh ch lbp') w2 = Done ((v, None), lbp'', w'')).
Proof.
  intros Haddr Hq Hc Ht t.
  assert (Htpos : 0 < t).
  { subst t. destruct (Z.eqb_spec (timeout lbp) 0); [reflexivity|lia]. }
  split; [|split].
  - intros Hz. subst t. rewrite Hz. reflexivity.
  - rewrite Address_uncached by exact Haddr. fold t.
    pose proof (selectAddr_wait r (addrCh lbp) t) as Hwait.
    destruct (selectAddr r (addrCh lbp) t) as [[v ch|] waited] eqn:Hsel;
      cbn [snd] in Hwait.
    + assert (Hch : ch = addrCh lbp).
      { unfold selectAddr in Hsel. rewrite (recv_empty_open _ _ _ Hq Hc) in Hsel.
        destruct (publishes r) as [[d v']|]; [|discriminate].
        destruct (_ || _); [|discriminate]. now injection Hsel. }
      subst ch. unfold close. rewrite Hc. cbn.
      eexists _, _, _. split; [reflexivity|]. cbn. lia.
    + eexists _, _, _. split; [reflexivity|]. cbn. lia.
  - intros Hlate. rewrite Address_uncached by exact Haddr. fold t.
    rewrite (selectAddr_timer r _ t Hq Hc) by (lia || exact Hlate).
    eexists. split; [reflexivity|]. split; [exact Haddr|].
    split; [reflexivity|].
    intros v ch r2 w2 Hsend.
    assert (Hch : queue ch = [v] /\ closed ch = false).
    { cbn in Hsend. unfold send in Hsend. rewrite Hc, Hq in Hsend.
      destruct (_ <? _)%nat; [|discriminate]. injection Hsend as <-.
      split; reflexivity. }
    destruct Hch as [Hqv Hcv].
    rewrite Address_uncached by exact Haddr.
    cbn -[selectAddr Z.eqb defaultTimeout].
    replace (if t =? 0 then defaultTimeout else t) with t
      by (destruct (Z.eqb_spec t 0); [lia|reflexivity]).
    rewrite (selectAddr_buffered _ _ _ v [] Hqv Htpos).
    unfold close. cbn [closed]. rewrite Hcv. cbn.
    eexists _, _. reflexivity.
Qed.

Lemma Address_timeout_witness :
  exists lbp',
    Address noRace fooPlugin (worldOf ∅ (answering muteChild))
    = Done (("", Some (Errorf "Failed to dial the plugin server in %s"
                         (ADuration 10000000000))),
            lbp', sleep 10000000000 (worldOf ∅ (answering muteChild)))
    /\ addrCh lbp' = make string 1.
Proof.
  destruct (Address_timeout Executor noRace fooPlugin
              (worldOf ∅ (answering muteChild)) eq_refl eq_refl eq_refl
              ltac:(cbn; lia))
    as (_ & _ & Hlate).
  destruct (Hlate I) as (lbp' & HA & _ & Hch & _).
  exists lbp'. split; [exact HA|exact Hch].
Defined.


(** *** Shutdown *)

Lemma Plugin_Close_nil (E : Type) (taken : bool) (lbp lbp' : Plugin E)
    (r : option error) :
  Plugin_Close taken lbp = Done (r, lbp') -> r = None.
Proof.
  unfold Plugin_Close. destruct taken; cbn.
  - now intros [= <- _].
  - destruct (send (stopCh lbp) true); cbn; [|discriminate..].
    now intros [= <- _].
Qed.

(** On the unbuffered channel [NewPlugin] makes, [Close] parks. *)
Lemma Plugin_Close_parks (E : Type) (lbp : Plugin E) :
  stopCh lbp = make bool 0 -> Plugin_Close false lbp = Blocks.
Proof. intros Hch. unfold Plugin_Close. rewrite Hch. reflexivity. Qed.

Lemma release_first (r : option error) (cs : list Closer) :
  existsb isParked cs = false ->
  release r (cs ++ [AtSend]) = (cs ++ [CloseReturned r])%list.
Proof.
  induction cs as [|c cs IH]; [reflexivity|]. cbn.
  destruct c as [|e]; [discriminate|]. cbn. intros Hcs. now rewrite IH.
Qed.

Lemma existsb_isParked_app (cs : list Closer) (c : Closer) :
  existsb isParked (cs ++ [c]) = existsb isParked cs || isParked c.
Proof. rewrite existsb_app. cbn. now rewrite orb_false_r. Qed.

Section Shutdown.

Context {E : Type} `{McnBinaryExecutor E}.

(** C7.  A call of [Close] on the plugin parks at its one send on the stop
    channel.  When the event loop takes that signal, the call of [Close]
    has returned, with [nil], while [Serve] has not: it stands in [Close]
    of the executor, and no signal is left.  From there [Serve] can only
    return through [Close] of the executor: it returns when that call
    does, the error of that call wrapped when there is one, and [nil] when
    there is none. *)
Theorem stop_signal_closes_executor (s : Sys E) :
  serve s = AtSelect ->
  stopCh (plugin s) = make bool 0 ->
  existsb isParked (closers s) = false ->
  exists s1 s2 : Sys E,
    step CallClose s = Done s1
    /\ serve s1 = AtSelect
    /\ closers s1 = (closers s ++ [AtSend])%list
    /\ step (OfServe CaseStop) s1 = Done s2
    /\ serve s2 = AtWait
    /\ closers s2 = (closers s ++ [CloseReturned None])%list
    /\ Serve CaseStop (setServe AtSelect s2) = Blocks
    /\ executor (plugin s2) = executor (plugin s)
    /\ world s2 = world s
    /\ (forall t : Turn, t <> WaitReturns -> Serve t s2 = Blocks)
    /\ (Close (executor (plugin s)) (world s) = Blocks ->
        Serve WaitReturns s2 = Blocks)
    /\ (forall r : option error,
          Close (executor (plugin s)) (world s) = Done r ->
          exists s3,
            Serve WaitReturns s2 = Done s3
            /\ serve s3
               = Returned
                   match r with
                   | Some err =>
                       Some (Errorf "Error closing local plugin binary: %s"
                               (AError err))
                   | None => None
                   end
            /\ closers s3 = closers s2).
Proof.
  intros Hst Hch Hnone.
  eexists _, _. split.
  { unfold step. rewrite (Plugin_Close_parks _ _ Hch). reflexivity. }
  split; [exact Hst|]. split; [reflexivity|].
  assert (Hstop : Serve CaseStop (setClosers (closers s ++ [AtSend]) s)
                  = Done (setServe AtWait
                            (setClosers (closers s ++ [CloseReturned None]) s))).
  { unfold Serve, execServer. cbn [serve setClosers plugin]. rewrite Hst.
    unfold recvStop. cbn [plugin closers setClosers]. rewrite Hch.
    cbn [queue make]. rewrite existsb_isParked_app, Hnone. cbn.
    rewrite (release_first None _ Hnone). destruct s as [[]]. reflexivity. }
  split; [exact Hstop|].
  split; [reflexivity|]. split; [reflexivity|]. split.
  { unfold Serve, execServer, recvStop. cbn. rewrite Hch. cbn.
    rewrite existsb_isParked_app, Hnone. reflexivity. }
  split; [reflexivity|]. split; [reflexivity|]. split.
  { intros t Ht. destruct t; try reflexivity. contradiction. }
  split.
  { intros Hblock. unfold Serve, execServer. cbn. now rewrite Hblock. }
  intros r Hr. unfold Serve, execServer. cbn. rewrite Hr. cbn.
  destruct r; eexists; split; try reflexivity; split; reflexivity.
Qed.

Lemma execServer_closers (t : Turn) (s s' : Sys E) :
  Serve t s = Done s' ->
  closers s' = closers s \/ closers s' = release None (closers s).
Proof.
  unfold Serve, execServer, recvStop, Plugin_Close.
  destruct (serve s), t; try discriminate.
  - destruct (Start _ _) as [[res ex] w]. destruct res as [[o e]|e].
    + destruct (Scan o) as [more sc]. destruct (Err sc);
        intros [= <-]; now left.
    + intros [= <-]. now left.
  - destruct (send _ _); cbn; [|discriminate..]. intros [= <-]. now left.
  - destruct (stdOutCh s) as [[| |]|]; try discriminate.
    intros [= <-]. now left.
  - destruct (stdErrCh s) as [[| |]|]; try discriminate.
    intros [= <-]. now left.
  - destruct (queue (stopCh (plugin s))), (existsb isParked (closers s)); cbn.
    + intros [= <-]. now right.
    + destruct (closed _); cbn; [|discriminate]. intros [= <-]. now left.
    + intros [= <-]. now right.
    + intros [= <-]. now left.
  - destruct (Close _ _) as [[e|]| |]; cbn; try discriminate;
      intros [= <-]; now left.
Qed.

Lemma nilReturns_release (cs : list Closer) :
  nilReturns cs -> nilReturns (release None cs).
Proof.
  unfold nilReturns. induction cs as [|c cs IH]; intros Hcs e; cbn; [tauto|].
  destruct c as [|e0]; cbn.
  - intros [[= <-]|Hin]; [reflexivity|]. apply Hcs. now right.
  - intros [[= <-]|Hin].
    + apply Hcs. now left.
    + apply IH; [|exact Hin]. intros e' He'. apply Hcs. now right.
Qed.

Lemma step_nilReturns (l : Label) (s s' : Sys E) :
  step l s = Done s' -> nilReturns (closers s) -> nilReturns (closers s').
Proof.
  destruct l as [t| | |]; cbn [step].
  - intros Hstep Hcs. destruct (execServer_closers _ _ _ Hstep) as [-> | ->];
      [exact Hcs|now apply nilReturns_release].
  - destruct (relayTurn _ _) as [[r w]| |]; cbn; [|discriminate..].
    now intros [= <-].
  - destruct (relayTurn _ _) as [[r w]| |]; cbn; [|discriminate..].
    now intros [= <-].
  - destruct (Plugin_Close false (plugin s)) as [[r lbp]| |] eqn:Hclose;
      [| |discriminate]; intros [= <-] Hcs e; cbn; rewrite in_app_iff; cbn.
    + intros [Hin|[[= <-]|[]]]; [now apply Hcs|].
      exact (Plugin_Close_nil _ _ _ _ _ Hclose).
    + intros [Hin|[[=]|[]]]. now apply Hcs.
Qed.

(** C10.  Along every run, whatever the schedule and whatever [Serve]
    returns, each call of [Close] on the plugin that has returned has
    returned [nil]. *)
Theorem Plugin_Close_returns_nil (ls : list Label) (lbp : Plugin E)
    (w : World) (s : Sys E) (e : option error) :
  run ls (boot lbp w) = Done s ->
  In (CloseReturned e) (closers s) ->
  e = None.
Proof.
  intros Hrun. assert (Hinv : nilReturns (closers s)); [|now apply Hinv].
  assert (Hboot : nilReturns (closers (boot lbp w))) by (intros e' []).
  revert Hrun Hboot. generalize (boot lbp w) as s0.
  induction ls as [|l ls IH]; intros s0; cbn [run].
  - now intros [= <-].
  - destruct (step l s0) as [s1| |] eqn:Hstep; cbn; [|discriminate..].
    intros Hrun Hs0. apply (IH s1 Hrun). exact (step_nilReturns _ _ _ Hstep Hs0).
Qed.

End Shutdown.

Lemma run_app (E : Type) `{McnBinaryExecutor E} (ls1 ls2 : list Label)
    (s : Sys E) :
  run (ls1 ++ ls2) s = s' ← run ls1 s; run ls2 s'.
Proof.
  revert s. induction ls1 as [|l ls1 IH]; intros s; [reflexivity|].
  cbn [run app]. destruct (step l s) as [s1| |]; cbn; [apply IH|reflexivity..].
Qed.

Lemma stop_signal_closes_executor_witness :
  exists s : Sys Executor,
    run ([OfServe Proceed; OfServe Proceed] ++ shutdown)
      (boot fooPlugin (worldOf ∅ (answering failingChild))) = Done s
    /\ serve s
       = Returned
           (Some (Errorf "Error closing local plugin binary: %s"
                    (AError (Errorf "Error waiting for binary close: %s"
                               (AError (OSError "exit status 1"))))))
    /\ closers s = [CloseReturned None].
Proof.
  eassert (Hsel : run [OfServe Proceed; OfServe Proceed]
                    (boot fooPlugin (worldOf ∅ (answering failingChild)))
                  = Done ?[sel]) by (vm_compute; reflexivity).
  match type of Hsel with
  | _ = Done ?sel =>
      edestruct (stop_signal_closes_executor sel)
        as (s1 & s2 & H1 & _ & _ & H2 & _ & Hcl & _ & _ & _ & _ & _ & Hret);
        [vm_compute; reflexivity..|]
  end.
  edestruct Hret as (s3 & H3 & Hserve & Hcl3); [vm_compute; reflexivity|].
  exists s3. split; [|split].
  - rewrite run_app, Hsel. cbn [mbind Outcome_bind shutdown run].
    rewrite H1. cbn [mbind Outcome_bind]. rewrite H2. cbn [mbind Outcome_bind].
    change (step (OfServe WaitReturns) s2) with (Serve WaitReturns s2).
    rewrite H3. reflexivity.
  - exact Hserve.
  - rewrite Hcl3, Hcl. reflexivity.
Defined.

Lemma Plugin_Close_returns_nil_witness :
  exists (s : Sys Executor) (e : option error),
    run ([OfServe Proceed; OfServe Proceed] ++ shutdown)
      (boot fooPlugin (worldOf ∅ (answering failingChild))) = Done s
    /\ In (CloseReturned e) (closers s)
    /\ (exists failure, serve s = Returned (Some failure))
    /\ e = None.
Proof.
  eexists _, _. split; [vm_compute; reflexivity|].
  split; [left; reflexivity|]. split; [eexists; reflexivity|].
  eapply (@Plugin_Close_returns_nil Executor Executor_McnBinaryExecutor
            ([OfServe Proceed; OfServe Proceed] ++ shutdown) fooPlugin
            (worldOf ∅ (answering failingChild)));
    [vm_compute; reflexivity | left; reflexivity].
Defined.

(** *** The address channel *)

Section AddressChannel.

Context {E : Type} `{McnBinaryExecutor E}.





End AddressChannel.




(** ** Further properties of the package *)

(** *** Trimming *)

Lemma dropPrefix_app (p s rest : list ascii) :
  dropPrefix p s = Some rest -> s = (p ++ rest)%list.
Proof.
  revert s. induction p as [|a p IH]; intros [|b s]; cbn; try discriminate.
  - now intros [= <-].
  - now intros [= <-].
  - destruct (Ascii.eqb_spec a b) as [->|]; [|discriminate].
    intros Hp. now rewrite (IH _ Hp).
Qed.

Lemma dropPrefix_extend (p s rest u : list ascii) :
  dropPrefix p s = Some rest -> dropPrefix p (s ++ u) = Some (rest ++ u)%list.
Proof.
  revert s. induction p as [|a p IH]; intros [|b s]; cbn; try discriminate.
  - now intros [= <-].
  - now intros [= <-].
  - destruct (Ascii.eqb a b); [apply IH|discriminate].
Qed.

Lemma dropOne_shorter (cut : list (list ascii)) (s rest : list ascii) :
  dropOne cut s = Some rest -> (length rest < length s)%nat.
Proof.
  induction cut as [|p cut IH]; cbn [dropOne]; [discriminate|].
  destruct p as [|a p]; [exact IH|].
  destruct (dropPrefix (a :: p) s) as [r|] eqn:Hp; [|exact IH].
  intros [= <-]. rewrite (dropPrefix_app _ _ _ Hp), length_app. cbn. lia.
Qed.

Lemma dropOne_suffix (cut : list (list ascii)) (s rest : list ascii) :
  dropOne cut s = Some rest -> exists p, s = (p ++ rest)%list.
Proof.
  induction cut as [|p cut IH]; cbn [dropOne]; [discriminate|].
  destruct p as [|a p]; [exact IH|].
  destruct (dropPrefix (a :: p) s) as [r|] eqn:Hp; [|exact IH].
  intros [= <-]. exists (a :: p). exact (dropPrefix_app _ _ _ Hp).
Qed.

Lemma dropOne_extend (cut : list (list ascii)) (s u : list ascii) :
  dropOne cut (s ++ u) = None -> dropOne cut s = None.
Proof.
  induction cut as [|p cut IH]; cbn [dropOne]; [reflexivity|].
  destruct p as [|a p]; [exact IH|].
  destruct (dropPrefix (a :: p) s) as [r|] eqn:Hp.
  - rewrite (dropPrefix_extend _ _ _ u Hp). discriminate.
  - destruct (dropPrefix (a :: p) (s ++ u)); [discriminate|exact IH].
Qed.

Lemma trimLeftFuel_trimmed (cut : list (list ascii)) (fuel : nat)
    (s : list ascii) :
  (length s <= fuel)%nat -> dropOne cut (trimLeftFuel fuel cut s) = None.
Proof.
  revert s. induction fuel as [|fuel IH]; intros s Hlen; cbn.
  - destruct (dropOne cut s) as [rest|] eqn:Hd; [|reflexivity].
    apply dropOne_shorter in Hd. lia.
  - destruct (dropOne cut s) as [rest|] eqn:Hd; [|exact Hd].
    apply IH. apply dropOne_shorter in Hd. lia.
Qed.

Lemma trimLeftFuel_suffix (cut : list (list ascii)) (fuel : nat)
    (s : list ascii) :
  exists p, s = (p ++ trimLeftFuel fuel cut s)%list.
Proof.
  revert s. induction fuel as [|fuel IH]; intros s; cbn.
  - now exists [].
  - destruct (dropOne cut s) as [rest|] eqn:Hd; [|now exists []].
    destruct (dropOne_suffix _ _ _ Hd) as [p ->].
    destruct (IH rest) as [q Hq]. exists (p ++ q)%list.
    rewrite <- app_assoc. now rewrite <- Hq.
Qed.

Lemma trimLeft_trimmed (cut : list (list ascii)) (s : list ascii) :
  dropOne cut (trimLeft cut s) = None.
Proof. now apply trimLeftFuel_trimmed. Qed.

Lemma trimLeft_fixed (cut : list (list ascii)) (s : list ascii) :
  dropOne cut s = None -> trimLeft cut s = s.
Proof.
  intros Hd. unfold trimLeft. destruct (length s); cbn; [reflexivity|].
  now rewrite Hd.
Qed.

Lemma trimRight_prefix (cut : list (list ascii)) (s : list ascii) :
  exists q, s = (trimRight cut s ++ q)%list.
Proof.
  unfold trimRight, trimLeft.
  destruct (trimLeftFuel_suffix (map (@rev ascii) cut) (length (rev s)) (rev s))
    as [p Hp].
  exists (rev p). rewrite <- rev_app_distr, <- Hp. now rewrite rev_involutive.
Qed.

(** Both ends of a string trimmed on the left, then on the right, are
    trimmed. *)
Lemma trim_both (cut : list (list ascii)) (s : list ascii) :
  let t := trimRight cut (trimLeft cut s) in
  dropOne cut t = None
  /\ dropOne (map (@rev ascii) cut) (rev t) = None
  /\ exists p q, s = (p ++ t ++ q)%list.
Proof.
  intros t. subst t. split; [|split].
  - destruct (trimRight_prefix cut (trimLeft cut s)) as [q Hq].
    apply (dropOne_extend _ _ q). rewrite <- Hq. apply trimLeft_trimmed.
  - unfold trimRight at 1. rewrite rev_involutive. apply trimLeft_trimmed.
  - destruct (trimLeftFuel_suffix cut (length s) s) as [p Hp].
    destruct (trimRight_prefix cut (trimLeft cut s)) as [q Hq].
    exists p, q. unfold trimLeft in *. now rewrite <- Hq.
Qed.

Lemma trim_both_fixed (cut : list (list ascii)) (s : list ascii) :
  dropOne cut s = None ->
  dropOne (map (@rev ascii) cut) (rev s) = None ->
  trimRight cut (trimLeft cut s) = s.
Proof.
  intros Hl Hr. rewrite (trimLeft_fixed _ _ Hl). unfold trimRight.
  rewrite (trimLeft_fixed _ _ Hr). apply rev_involutive.
Qed.

(** X16.  What [execServer] sends as the address neither starts nor ends
    with a rune of white space, it is a piece of the line the child wrote,
    and trimming it again changes nothing: an address that went through
    the handshake can be trimmed by its reader without harm. *)
Theorem TrimSpace_trimmed (line : string) :
  dropOne spaces (bytes (TrimSpace line)) = None
  /\ dropOne (map (@rev ascii) spaces) (rev (bytes (TrimSpace line))) = None
  /\ (exists p q, bytes line = (p ++ bytes (TrimSpace line) ++ q)%list)
  /\ TrimSpace (TrimSpace line) = TrimSpace line.
Proof.
  unfold TrimSpace, bytes, str.
  rewrite !list_ascii_of_string_of_list_ascii.
  destruct (trim_both spaces (list_ascii_of_string line)) as (Hl & Hr & Hsub).
  repeat split; [exact Hl|exact Hr|exact Hsub|].
  now rewrite (trim_both_fixed _ _ Hl Hr).
Qed.

(** X17.  A line the relays hand to the event loop has no newline at
    either end, and trimming is all that was done to the token. *)
Theorem TrimNewlines_trimmed (token : string) :
  dropOne newline (bytes (TrimNewlines token)) = None
  /\ dropOne (map (@rev ascii) newline) (rev (bytes (TrimNewlines token))) = None
  /\ (exists p q, bytes token = (p ++ bytes (TrimNewlines token) ++ q)%list)
  /\ TrimNewlines (TrimNewlines token) = TrimNewlines token.
Proof.
  unfold TrimNewlines, bytes, str.
  rewrite !list_ascii_of_string_of_list_ascii.
  destruct (trim_both newline (list_ascii_of_string token)) as (Hl & Hr & Hsub).
  repeat split; [exact Hl|exact Hr|exact Hsub|].
  now rewrite (trim_both_fixed _ _ Hl Hr).
Qed.
(** *** More on the launch *)

(** Case analysis on the identity variables and on what the operating
    system answers to [Start]. *)
Ltac start_all_cases :=
  unfold Executor_Start;
  destruct (negb _ && negb _);
    [destruct (Atoi _) as [?uid|?e]; [destruct (Atoi _) as [?gid|?e]|]|];
  cbn [os osArgs Debugf logf Setenv]; start_cases.

(** X4.  [Start] returns scanners exactly when it has spawned a child, one
    child: the scanners then stand at the beginning of the two streams of
    that child and the command of the executor is the one that runs.  When
    it returns an error, nothing was spawned, and the command the executor
    holds, if [Start] got as far as setting one, was not started. *)
Theorem Start_spawns_with_scanners (lbe : Executor) (w : World) :
  let '(res, lbe', w') := Executor_Start lbe w in
  match res with
  | inl (outScanner, errScanner) =>
      outScanner = NewScanner (stdout (child (os w)))
      /\ errScanner = NewScanner (stderr (child (os w)))
      /\ (exists c,
            spawned w'
            = (spawned w ++ [{| image := c; inherited := environ w' |}])%list
            /\ cmd lbe' = Some c /\ Process c = true)
      /\ stdoutPipe (os w) = None /\ stderrPipe (os w) = None
      /\ startErr (os w) = None
  | inr _ =>
      spawned w' = spawned w
      /\ (lbe' = lbe \/ exists c, cmd lbe' = Some c /\ Process c = false)
  end.
Proof.
  start_all_cases; cbn;
    first [ split; [reflexivity|]; first [now left | right; eexists; split; reflexivity]
          | repeat split; eexists; repeat split ].
Qed.

Lemma Getenv_Setenv (key value : string) (w : World) :
  Getenv key (Setenv key value w) = value.
Proof. unfold Getenv, Setenv. cbn. now rewrite lookup_insert_eq. Qed.

Lemma Getenv_Setenv_ne (key key' value : string) (w : World) :
  key <> key' -> Getenv key (Setenv key' value w) = Getenv key w.
Proof.
  intros Hne. unfold Getenv, Setenv. cbn.
  now rewrite lookup_insert_ne by congruence.
Qed.

Lemma Getenv_plugin (name : string) (w : World) :
  let w' := Setenv PluginEnvDriverName name (Setenv PluginEnvKey PluginEnvVal w) in
  Getenv PluginEnvKey w' = PluginEnvVal /\ Getenv PluginEnvDriverName w' = name.
Proof.
  split.
  - rewrite Getenv_Setenv_ne by discriminate. apply Getenv_Setenv.
  - apply Getenv_Setenv.
Qed.



(** *** More on the resolution of the binary *)

Lemma append_inj (p a b : string) : p +:+ a = p +:+ b -> a = b.
Proof. induction p as [|c p IH]; cbn; [trivial|]. intros [= Heq]. auto. Qed.

Lemma core_driver (name : string) :
  In name CoreDrivers <->
  existsb (fun coreDriver => (coreDriver =? name)%string) CoreDrivers = true.
Proof.
  rewrite existsb_exists. split.
  - intros Hin. exists name. split; [exact Hin|apply String.eqb_refl].
  - intros (d & Hin & Heq). apply String.eqb_eq in Heq. now subst.
Qed.

Lemma other_driver (name : string) :
  ~ In name CoreDrivers ->
  existsb (fun coreDriver => (coreDriver =? name)%string) CoreDrivers = false.
Proof.
  intros Hn. destruct (existsb _ CoreDrivers) eqn:E; [|reflexivity].
  apply core_driver in E. contradiction.
Qed.

(** X7.  All core drivers are served by one binary, and every other driver
    by a binary of its own: [driverPath] gives the same path for any two
    core drivers, different paths for different names that are no core
    drivers, and never the path of a core driver for a name that is none
    when the binary of the core drivers is [rancher-machine].  It panics
    only when a core driver is asked for while the current binary is to be
    reused and the argument vector is empty. *)
Theorem driverPath_shared_or_own (w : World) :
  (forall d1 d2 : string,
     In d1 CoreDrivers -> In d2 CoreDrivers -> driverPath d1 w = driverPath d2 w)
  /\ (forall n1 n2 : string,
        ~ In n1 CoreDrivers -> ~ In n2 CoreDrivers ->
        driverPath n1 w = driverPath n2 w -> n1 = n2)
  /\ (forall d n : string,
        In d CoreDrivers -> ~ In n CoreDrivers ->
        CurrentBinaryIsDockerMachine w = false ->
        driverPath d w <> driverPath n w)
  /\ (forall (name msg : string),
        driverPath name w = Panics msg ->
        In name CoreDrivers /\ CurrentBinaryIsDockerMachine w = true
        /\ osArgs w = []).
Proof.
  repeat split.
  - intros d1 d2 H1 H2. unfold driverPath.
    apply core_driver in H1, H2. now rewrite H1, H2.
  - intros n1 n2 H1 H2. unfold driverPath.
    rewrite (other_driver _ H1), (other_driver _ H2).
    intros [= Heq]. exact (append_inj _ _ _ Heq).
  - intros d n Hd Hn Hcur. unfold driverPath.
    apply core_driver in Hd. rewrite Hd, Hcur, (other_driver _ Hn).
    discriminate.
  - unfold driverPath in H.
    destruct (existsb _ CoreDrivers) eqn:E; [|discriminate].
    now apply core_driver.
  - unfold driverPath in H.
    destruct (existsb _ CoreDrivers); [|discriminate].
    destruct (CurrentBinaryIsDockerMachine w); [reflexivity|discriminate].
  - unfold driverPath in H.
    destruct (existsb _ CoreDrivers); [|discriminate].
    destruct (CurrentBinaryIsDockerMachine w); [|discriminate].
    destruct (osArgs w); [reflexivity|discriminate].
Qed.



(** *** The event loop *)

Lemma tagged_app (l : Level) (fmt : string) (log : list LogRecord)
    (r : LogRecord) :
  tagged l fmt (log ++ [r])
  = (tagged l fmt log ++ match entry l fmt r with
                         | Some line => [line]
                         | None => []
                         end)%list.
Proof.
  unfold tagged. rewrite omap_app. cbn. now destruct (entry l fmt r).
Qed.

(** A turn of a relay logs nothing of the streams and keeps what it has
    yet to deliver. *)
Lemma stream_tagged (l : Level) (fmt : string) (scanner : Scanner) (w : World) :
  tagged l fmt (logged (snd (stream scanner w))) = tagged l fmt (logged w).
Proof.
  unfold stream, Scan. destruct (feed scanner) as [|[t e|e] rest];
    cbn -[tagged]; try reflexivity.
  destruct e as [e|]; cbn -[tagged]; [|reflexivity].
  rewrite tagged_app. cbn. apply app_nil_r.
Qed.

Lemma stream_pending (scanner : Scanner) (w : World) :
  pendingLines (Some (fst (stream scanner w))) = relayed (feed scanner).
Proof.
  unfold stream, Scan. destruct (feed scanner) as [|[t e|e] rest]; reflexivity.
Qed.

Lemma stream_world (scanner : Scanner) (w : World) :
  let w' := snd (stream scanner w) in
  environ w' = environ w /\ spawned w' = spawned w /\ os w' = os w
  /\ osArgs w' = osArgs w /\ now w' = now w.
Proof.
  unfold stream, Scan. destruct (feed scanner) as [|[t e|e] rest]; cbn;
    try (destruct e); repeat split.
Qed.

Section EventLoop.

Context {E : Type} `{McnBinaryExecutor E}.

(** A step taken once the event loop was reached keeps the loop reached,
    the name of the machine, and the two books. *)
Lemma step_serving (l : Label) (s s' : Sys E) :
  step l s = Done s' -> serving s = true ->
  serving s' = true
  /\ MachineName (plugin s') = MachineName (plugin s)
  /\ outBook s' = outBook s
  /\ errBook s' = errBook s.
Proof.
  unfold serving, outBook, errBook, book.
  destruct l as [t| | |]; cbn [step].
  - unfold Serve, execServer, recvStop, Plugin_Close.
    destruct (serve s) eqn:Hst, t; try discriminate; intros Hstep _.
    + destruct (stdOutCh s) as [[| |]|] eqn:Hout; try discriminate.
      injection Hstep as <-. cbn -[tagged]. rewrite Hst, !tagged_app. cbn.
      rewrite app_nil_r, <- app_assoc. repeat split.
    + destruct (stdErrCh s) as [[| |]|] eqn:Herr; try discriminate.
      injection Hstep as <-. cbn -[tagged]. rewrite Hst, !tagged_app. cbn.
      rewrite app_nil_r, <- app_assoc. repeat split.
    + destruct (queue (stopCh (plugin s))), (existsb isParked (closers s));
        cbn in Hstep; try (destruct (closed _); cbn in Hstep);
        try discriminate; injection Hstep as <-; cbn; repeat split.
    + destruct (Close _ _) as [[e|]| |]; cbn in Hstep; try discriminate;
        injection Hstep as <-; cbn; repeat split.
  - destruct (stdOutCh s) as [[scanner| |]|] eqn:Hout; cbn; try discriminate.
    pose proof (stream_tagged InfoLevel pluginOut scanner (world s)) as Ho.
    pose proof (stream_tagged DebugLevel pluginErr scanner (world s)) as He.
    pose proof (stream_pending scanner (world s)) as Hp.
    destruct (stream scanner (world s)) as [r w]. cbn in Ho, He, Hp |- *.
    intros [= <-] Hs. cbn. rewrite Ho, He, Hp. repeat split. exact Hs.
  - destruct (stdErrCh s) as [[scanner| |]|] eqn:Herr; cbn; try discriminate.
    pose proof (stream_tagged InfoLevel pluginOut scanner (world s)) as Ho.
    pose proof (stream_tagged DebugLevel pluginErr scanner (world s)) as He.
    pose proof (stream_pending scanner (world s)) as Hp.
    destruct (stream scanner (world s)) as [r w]. cbn in Ho, He, Hp |- *.
    intros [= <-] Hs. cbn. rewrite Ho, He, Hp. repeat split. exact Hs.
  - unfold Plugin_Close.
    destruct (send (stopCh (plugin s)) true) as [ch| |]; cbn;
      [| |discriminate]; intros [= <-] Hs; cbn; repeat split; exact Hs.
Qed.

Lemma run_serving (ls : list Label) (s s' : Sys E) :
  run ls s = Done s' -> serving s = true ->
  serving s' = true
  /\ MachineName (plugin s') = MachineName (plugin s)
  /\ outBook s' = outBook s
  /\ errBook s' = errBook s.
Proof.
  revert s. induction ls as [|l ls IH]; intros s; cbn [run].
  - intros [= <-] Hs. repeat split. exact Hs.
  - destruct (step l s) as [s1| |] eqn:Hstep; cbn; [|discriminate..].
    intros Hrun Hs.
    destruct (step_serving _ _ _ Hstep Hs) as (Hs1 & Hm1 & Ho1 & He1).
    destruct (IH _ Hrun Hs1) as (Hs' & Hm' & Ho' & He').
    repeat split; [exact Hs'|congruence..].
Qed.

(** X9.  While the event loop runs, and after, whatever the schedule: the
    lines logged for a stream so far, followed by the lines its relay has
    yet to deliver, are the lines the stream had when the loop was reached,
    each under the name of the machine.  So the lines of standard output
    are logged in the order the child wrote them, as are those of standard
    error: none is dropped, repeated or moved, and none is logged for the
    other stream. *)
Theorem relayed_in_order (ls : list Label) (s s' : Sys E) :
  serve s = AtSelect ->
  run ls s = Done s' ->
  (tagged InfoLevel pluginOut (logged (world s'))
   ++ map (pair (MachineName (plugin s))) (pendingLines (stdOutCh s')))%list
  = (tagged InfoLevel pluginOut (logged (world s))
     ++ map (pair (MachineName (plugin s))) (pendingLines (stdOutCh s)))%list
  /\ (tagged DebugLevel pluginErr (logged (world s'))
      ++ map (pair (MachineName (plugin s))) (pendingLines (stdErrCh s')))%list
     = (tagged DebugLevel pluginErr (logged (world s))
        ++ map (pair (MachineName (plugin s))) (pendingLines (stdErrCh s)))%list.
Proof.
  intros Hst Hrun.
  destruct (run_serving _ _ _ Hrun) as (_ & Hm & Ho & He).
  { unfold serving. now rewrite Hst. }
  unfold outBook, errBook, book in Ho, He. rewrite Hm in Ho, He.
  split; assumption.
Qed.

(** A step taken once the event loop was left keeps it left, and neither
    logs a line of the streams nor touches the address channel. *)
Lemma step_stopped (l : Label) (s s' : Sys E) :
  step l s = Done s' -> stopped s = true ->
  stopped s' = true
  /\ addrCh (plugin s') = addrCh (plugin s)
  /\ Addr (plugin s') = Addr (plugin s)
  /\ tagged InfoLevel pluginOut (logged (world s'))
     = tagged InfoLevel pluginOut (logged (world s))
  /\ tagged DebugLevel pluginErr (logged (world s'))
     = tagged DebugLevel pluginErr (logged (world s))
  /\ spawned (world s') = spawned (world s).
Proof.
  unfold stopped.
  destruct l as [t| | |]; cbn [step].
  - unfold Serve, execServer.
    destruct (serve s) eqn:Hst, t; try discriminate; intros Hstep _.
    destruct (Close _ _) as [[e|]| |]; cbn in Hstep; try discriminate;
      injection Hstep as <-; cbn; repeat split.
  - destruct (stdOutCh s) as [[scanner| |]|] eqn:Hout; cbn; try discriminate.
    pose proof (stream_tagged InfoLevel pluginOut scanner (world s)) as Ho.
    pose proof (stream_tagged DebugLevel pluginErr scanner (world s)) as He.
    pose proof (stream_world scanner (world s)) as (_ & Hsp & _).
    destruct (stream scanner (world s)) as [r w]. cbn in Ho, He, Hsp |- *.
    intros [= <-] Hs. cbn -[tagged]. rewrite Ho, He, Hsp. repeat split. exact Hs.
  - destruct (stdErrCh s) as [[scanner| |]|] eqn:Herr; cbn; try discriminate.
    pose proof (stream_tagged InfoLevel pluginOut scanner (world s)) as Ho.
    pose proof (stream_tagged DebugLevel pluginErr scanner (world s)) as He.
    pose proof (stream_world scanner (world s)) as (_ & Hsp & _).
    destruct (stream scanner (world s)) as [r w]. cbn in Ho, He, Hsp |- *.
    intros [= <-] Hs. cbn -[tagged]. rewrite Ho, He, Hsp. repeat split. exact Hs.
  - unfold Plugin_Close.
    destruct (send (stopCh (plugin s)) true) as [ch| |]; cbn;
      [| |discriminate]; intros [= <-] Hs; cbn; repeat split; exact Hs.
Qed.

Lemma run_stopped (ls : list Label) (s s' : Sys E) :
  run ls s = Done s' -> stopped s = true ->
  stopped s' = true
  /\ addrCh (plugin s') = addrCh (plugin s)
  /\ Addr (plugin s') = Addr (plugin s)
  /\ tagged InfoLevel pluginOut (logged (world s'))
     = tagged InfoLevel pluginOut (logged (world s))
  /\ tagged DebugLevel pluginErr (logged (world s'))
     = tagged DebugLevel pluginErr (logged (world s))
  /\ spawned (world s') = spawned (world s).
Proof.
  revert s. induction ls as [|l ls IH]; intros s; cbn [run].
  - intros [= <-] Hs. repeat split. exact Hs.
  - destruct (step l s) as [s1| |] eqn:Hstep; cbn; [|discriminate..].
    intros Hrun Hs.
    destruct (step_stopped _ _ _ Hstep Hs) as (Hs1 & H1 & H2 & H3 & H4 & H5).
    destruct (IH _ Hrun Hs1) as (Hs' & H1' & H2' & H3' & H4' & H5').
    repeat split; [exact Hs'|congruence..].
Qed.

(** X10.  Once the event loop has taken the stop signal, or [Serve] has
    returned, nothing the child writes is logged any more, whatever it
    writes and however long the relays and the callers go on; the loop is
    never entered again. *)
Theorem nothing_relayed_after_stop (ls : list Label) (s s' : Sys E) :
  stopped s = true ->
  run ls s = Done s' ->
  stopped s' = true
  /\ tagged InfoLevel pluginOut (logged (world s'))
     = tagged InfoLevel pluginOut (logged (world s))
  /\ tagged DebugLevel pluginErr (logged (world s'))
     = tagged DebugLevel pluginErr (logged (world s)).
Proof.
  intros Hs Hrun.
  destruct (run_stopped _ _ _ Hrun Hs) as (Hs' & _ & _ & Ho & He & _).
  repeat split; assumption.
Qed.

(** [Serve] that has returned stays returned, with what it returned. *)
Lemma step_returned (l : Label) (s s' : Sys E) (e : option error) :
  step l s = Done s' -> serve s = Returned e -> serve s' = Returned e.
Proof.
  intros Hstep Hst. destruct l as [t| | |]; cbn [step] in Hstep.
  - unfold Serve, execServer in Hstep. rewrite Hst in Hstep.
    destruct t; discriminate.
  - destruct (relayTurn _ _) as [[r w]| |]; cbn in Hstep; [|discriminate..].
    now injection Hstep as <-.
  - destruct (relayTurn _ _) as [[r w]| |]; cbn in Hstep; [|discriminate..].
    now injection Hstep as <-.
  - destruct (Plugin_Close false (plugin s)) as [[r lbp]| |];
      [| |discriminate]; now injection Hstep as <-.
Qed.

Lemma run_returned (ls : list Label) (s s' : Sys E) (e : option error) :
  run ls s = Done s' -> serve s = Returned e -> serve s' = Returned e.
Proof.
  revert s. induction ls as [|l ls IH]; intros s; cbn [run].
  - now intros [= <-].
  - destruct (step l s) as [s1| |] eqn:Hstep; cbn; [|discriminate..].
    intros Hrun Hst. exact (IH _ Hrun (step_returned _ _ _ _ Hstep Hst)).
Qed.

(** X1.  When [Start] of the executor fails, [Serve] returns the error of
    [Start] as it is and starts no relay; through everything that may
    follow it stays returned with that error, no address is sent, and
    nothing is spawned. *)
Theorem Serve_returns_start_error (s : Sys E) (e : error) (ex : E) (w : World) :
  serve s = AtStart ->
  Start (executor (plugin s)) (world s) = (inr e, ex, w) ->
  exists s1,
    Serve Proceed s = Done s1
    /\ serve s1 = Returned (Some e)
    /\ stdOutCh s1 = stdOutCh s /\ stdErrCh s1 = stdErrCh s
    /\ forall (ls : list Label) (s' : Sys E),
         run ls s1 = Done s' ->
         serve s' = Returned (Some e)
         /\ addrCh (plugin s') = addrCh (plugin s)
         /\ spawned (world s') = spawned w.
Proof.
  intros Hst HS. eexists. split.
  { unfold Serve, execServer. rewrite Hst, HS. reflexivity. }
  split; [reflexivity|]. split; [reflexivity|]. split; [reflexivity|].
  intros ls s' Hrun.
  destruct (run_stopped _ _ _ Hrun eq_refl) as (_ & Hch & _ & _ & _ & Hsp).
  split; [exact (run_returned _ _ _ _ Hrun eq_refl)|].
  split; [exact Hch|exact Hsp].
Qed.

(** X2.  When the scanner of standard output reports an error at its first
    [Scan], with or without a token, [Serve] returns that error under
    [Reading plugin address failed] without starting a relay or waiting for
    the child; through everything that may follow it stays returned, no
    address is sent, and the child that [Start] spawned is all that was
    spawned. *)
Theorem Serve_returns_scan_error (s : Sys E) (outScanner errScanner : Scanner)
    (ex : E) (w : World) (e : error) :
  serve s = AtStart ->
  Start (executor (plugin s)) (world s) = (inl (outScanner, errScanner), ex, w) ->
  Err (snd (Scan outScanner)) = Some e ->
  exists s1,
    Serve Proceed s = Done s1
    /\ serve s1 = Returned (Some (Errorf "Reading plugin address failed: %s"
                                    (AError e)))
    /\ stdOutCh s1 = stdOutCh s /\ stdErrCh s1 = stdErrCh s
    /\ forall (ls : list Label) (s' : Sys E),
         run ls s1 = Done s' ->
         serve s' = Returned (Some (Errorf "Reading plugin address failed: %s"
                                      (AError e)))
         /\ addrCh (plugin s') = addrCh (plugin s)
         /\ spawned (world s') = spawned w.
Proof.
  intros Hst HS He. eexists. split.
  { rewrite (Serve_first_scan _ _ _ _ _ Hst HS), He. reflexivity. }
  split; [reflexivity|]. split; [reflexivity|]. split; [reflexivity|].
  intros ls s' Hrun.
  destruct (run_stopped _ _ _ Hrun eq_refl) as (_ & Hch & _ & _ & _ & Hsp).
  split; [exact (run_returned _ _ _ _ Hrun eq_refl)|].
  split; [exact Hch|exact Hsp].
Qed.

(** *** The stop channel *)

Lemma returned_release (r : option error) (cs : list Closer) :
  (length (returned (release r cs)) <= S (length (returned cs)))%nat.
Proof.
  unfold returned.
  induction cs as [|[|e] cs IH];
    cbn [release List.filter isParked negb length]; lia.
Qed.

Lemma step_oneStop (l : Label) (s s' : Sys E) :
  step l s = Done s' -> oneStop s -> oneStop s'.
Proof.
  unfold oneStop, stopped, returned. intros Hstep [Hch Hret].
  destruct l as [t| | |]; cbn [step] in Hstep.
  - unfold Serve, execServer, recvStop, Plugin_Close in Hstep.
    destruct (serve s) eqn:Hst, t; try discriminate;
      try rewrite Hst in Hret; cbn in Hret.
    + destruct (Start _ _) as [[res ex] w]. destruct res as [[o e]|e].
      * destruct (Scan o) as [more sc]. destruct (Err sc);
          injection Hstep as <-; cbn; (split; [exact Hch|lia]).
      * injection Hstep as <-. cbn. split; [exact Hch|lia].
    + destruct (send _ _); cbn in Hstep; [|discriminate..].
      injection Hstep as <-. cbn. split; [exact Hch|lia].
    + destruct (stdOutCh s) as [[| |]|]; try discriminate.
      injection Hstep as <-. cbn. rewrite Hst. split; [exact Hch|lia].
    + destruct (stdErrCh s) as [[| |]|]; try discriminate.
      injection Hstep as <-. cbn. rewrite Hst. split; [exact Hch|lia].
    + rewrite Hch in Hstep. cbn in Hstep.
      destruct (existsb isParked (closers s)); cbn in Hstep; [|discriminate].
      injection Hstep as <-. cbn. split; [exact Hch|].
      pose proof (returned_release None (closers s)) as Hrel.
      unfold returned in Hrel. lia.
    + destruct (Close _ _) as [[e|]| |]; cbn in Hstep; try discriminate;
        injection Hstep as <-; cbn; (split; [exact Hch|lia]).
  - destruct (relayTurn _ _) as [[r w]| |]; cbn in Hstep; [|discriminate..].
    injection Hstep as <-. cbn. split; [exact Hch|exact Hret].
  - destruct (relayTurn _ _) as [[r w]| |]; cbn in Hstep; [|discriminate..].
    injection Hstep as <-. cbn. split; [exact Hch|exact Hret].
  - rewrite (Plugin_Close_parks _ _ Hch) in Hstep. injection Hstep as <-.
    cbn. rewrite List.filter_app. cbn. rewrite app_nil_r.
    split; [exact Hch|exact Hret].
Qed.

Lemma run_oneStop (ls : list Label) (s s' : Sys E) :
  run ls s = Done s' -> oneStop s -> oneStop s'.
Proof.
  revert s. induction ls as [|l ls IH]; intros s; cbn [run].
  - now intros [= <-].
  - destruct (step l s) as [s1| |] eqn:Hstep; cbn; [|discriminate..].
    intros Hrun Hs. exact (IH _ Hrun (step_oneStop _ _ _ Hstep Hs)).
Qed.

(** X11.  On a plugin with the stop channel of [NewPlugin], whatever the
    schedule and however many callers call [Close]: no call of [Close]
    returns before the event loop has taken a stop signal, and one call at
    most returns at all. *)
Theorem one_Close_returns (ls : list Label) (lbp : Plugin E) (w : World)
    (s : Sys E) :
  stopCh lbp = make bool 0 ->
  run ls (boot lbp w) = Done s ->
  (length (returned (closers s)) <= 1)%nat
  /\ (stopped s = false -> returned (closers s) = []).
Proof.
  intros Hch Hrun.
  destruct (run_oneStop _ _ _ Hrun) as [_ Hret].
  { split; [exact Hch|cbn; lia]. }
  destruct (stopped s); split; try lia; try discriminate.
  intros _. destruct (returned (closers s)); [reflexivity|cbn in Hret; lia].
Qed.

Lemma step_parked (l : Label) (s s' : Sys E) :
  step l s = Done s' -> stopped s = true -> stopCh (plugin s) = make bool 0 ->
  stopCh (plugin s') = make bool 0
  /\ (closers s' = closers s \/ closers s' = (closers s ++ [AtSend])%list).
Proof.
  unfold stopped. intros Hstep Hs Hch.
  destruct l as [t| | |]; cbn [step] in Hstep.
  - unfold Serve, execServer in Hstep.
    destruct (serve s) eqn:Hst, t; try discriminate.
    destruct (Close _ _) as [[e|]| |]; cbn in Hstep; try discriminate;
      injection Hstep as <-; cbn; (split; [exact Hch|now left]).
  - destruct (relayTurn _ _) as [[r w]| |]; cbn in Hstep; [|discriminate..].
    injection Hstep as <-. cbn. split; [exact Hch|now left].
  - destruct (relayTurn _ _) as [[r w]| |]; cbn in Hstep; [|discriminate..].
    injection Hstep as <-. cbn. split; [exact Hch|now left].
  - rewrite (Plugin_Close_parks _ _ Hch) in Hstep. injection Hstep as <-.
    cbn. split; [exact Hch|now right].
Qed.

(** X12.  Once the event loop was left, a call of [Close] never returns:
    through any schedule the callers that were parked stay parked, and
    every new caller parks behind them. *)
Theorem Close_after_stop_parks (ls : list Label) (s s' : Sys E) :
  stopped s = true ->
  stopCh (plugin s) = make bool 0 ->
  run ls s = Done s' ->
  exists n : nat, closers s' = (closers s ++ repeat AtSend n)%list.
Proof.
  revert s. induction ls as [|l ls IH]; intros s Hs Hch; cbn [run].
  - intros [= <-]. exists 0%nat. cbn. now rewrite app_nil_r.
  - destruct (step l s) as [s1| |] eqn:Hstep; cbn; [|discriminate..].
    intros Hrun.
    destruct (step_stopped _ _ _ Hstep Hs) as (Hs1 & _).
    destruct (step_parked _ _ _ Hstep Hs Hch) as (Hch1 & Hcl).
    destruct (IH _ Hs1 Hch1 Hrun) as [n Hn].
    destruct Hcl as [Hcl|Hcl]; rewrite Hcl in Hn.
    + now exists n.
    + exists (S n). rewrite Hn, <- app_assoc. reflexivity.
Qed.

Lemma returned_snoc_parked (cs : list Closer) :
  returned (cs ++ [AtSend]) = returned cs.
Proof. unfold returned. rewrite List.filter_app. cbn. apply app_nil_r. Qed.

Lemma returned_release_parked (r : option error) (cs : list Closer) :
  existsb isParked cs = true ->
  length (returned (release r cs)) = S (length (returned cs)).
Proof.
  unfold returned.
  induction cs as [|[|e] cs IH];
    cbn [release List.filter isParked negb length existsb orb];
    [discriminate|reflexivity|].
  intros Hcs. now rewrite (IH Hcs).
Qed.

Lemma step_stopServed (l : Label) (s s' : Sys E) :
  step l s = Done s' -> stopServed s -> stopServed s'.
Proof.
  unfold stopServed. intros Hstep [Hch Hret].
  destruct l as [t| | |]; cbn [step] in Hstep.
  - unfold Serve, execServer, recvStop, Plugin_Close in Hstep.
    destruct (serve s) eqn:Hst, t; try discriminate.
    + destruct (Start _ _) as [[res ex] w]. destruct res as [[o e]|e].
      * destruct (Scan o) as [more sc]. destruct (Err sc);
          injection Hstep as <-; cbn [plugin serve closers setServe setWorld
                                        setPlugin setExecutor stopCh];
          (split; [exact Hch|first [exact I|exact Hret]]).
      * injection Hstep as <-. split; [exact Hch|exact I].
    + destruct (send _ _); cbn in Hstep; [|discriminate..].
      injection Hstep as <-. split; [exact Hch|exact Hret].
    + destruct (stdOutCh s) as [[| |]|]; try discriminate.
      injection Hstep as <-. cbn [plugin serve closers setStdOutCh setWorld].
      rewrite Hst. split; [exact Hch|exact Hret].
    + destruct (stdErrCh s) as [[| |]|]; try discriminate.
      injection Hstep as <-. cbn [plugin serve closers setStdErrCh setWorld].
      rewrite Hst. split; [exact Hch|exact Hret].
    + rewrite Hch in Hstep. cbn in Hstep.
      destruct (existsb isParked (closers s)) eqn:Hpark; cbn in Hstep;
        [|discriminate].
      injection Hstep as <-.
      cbn [plugin serve closers setServe setClosers setPlugin].
      split; [exact Hch|].
      rewrite (returned_release_parked _ _ Hpark), Hret. reflexivity.
    + destruct (Close _ _) as [[e|]| |]; cbn in Hstep; try discriminate;
        injection Hstep as <-; (split; [exact Hch|first [exact I|exact Hret]]).
  - destruct (relayTurn _ _) as [[r w]| |]; cbn in Hstep; [|discriminate..].
    injection Hstep as <-. split; [exact Hch|exact Hret].
  - destruct (relayTurn _ _) as [[r w]| |]; cbn in Hstep; [|discriminate..].
    injection Hstep as <-. split; [exact Hch|exact Hret].
  - rewrite (Plugin_Close_parks _ _ Hch) in Hstep. injection Hstep as <-.
    cbn [plugin serve closers setClosers]. rewrite returned_snoc_parked.
    split; [exact Hch|exact Hret].
Qed.

(** X15.  [Serve] returns [nil] only when it was asked to stop: on a
    plugin with the stop channel of [NewPlugin], whatever the schedule,
    when [Serve] has returned [nil] exactly one call of [Close] has
    returned, and while [Serve] is on its way to the event loop or in it
    none has. *)
Theorem Serve_returns_nil_only_stopped (ls : list Label) (lbp : Plugin E)
    (w : World) (s : Sys E) :
  stopCh lbp = make bool 0 ->
  run ls (boot lbp w) = Done s ->
  (serve s = Returned None -> length (returned (closers s)) = 1%nat)
  /\ (stopped s = false -> returned (closers s) = []).
Proof.
  intros Hch Hrun.
  assert (Hinv : stopServed s).
  { assert (Hboot : stopServed (boot lbp w)) by (split; [exact Hch|reflexivity]).
    revert Hrun Hboot. generalize (boot lbp w) as s0.
    induction ls as [|l ls IH]; intros s0; cbn [run].
    - now intros [= <-].
    - destruct (step l s0) as [s1| |] eqn:Hstep; cbn; [|discriminate..].
      intros Hrun Hs0. exact (IH _ Hrun (step_stopServed _ _ _ Hstep Hs0)). }
  destruct Hinv as [_ Hret]. unfold stopped. split.
  - intros Hst. now rewrite Hst in Hret.
  - destruct (serve s); try discriminate; intros _; exact Hret.
Qed.

End EventLoop.

(** *** More on Address *)

(** X14.  [Address] never hangs.  On an open address channel it returns,
    after the duration of its timer at most, with an address and no error
    or with an error and no address.  With no address cached and the
    channel closed, as after a call that read an empty address, it panics
    at its [close]. *)
Theorem Address_returns_or_panics (E : Type) (r : Race) (lbp : Plugin E)
    (w : World) :
  let t := if timeout lbp =? 0 then defaultTimeout else timeout lbp in
  Address r lbp w <> Blocks
  /\ (closed (addrCh lbp) = false ->
      exists a e lbp' w',
        Address r lbp w = Done ((a, e), lbp', w')
        /\ (e = None \/ a = "")
        /\ now w <= now w' <= now w + Z.max 0 t)
  /\ (Addr lbp = "" -> closed (addrCh lbp) = true -> 0 <= timeout lbp ->
      Address r lbp w = Panics "close of closed channel").
Proof.
  intros t. destruct (String.eqb_spec (Addr lbp) "") as [Hempty|Hne].
  - rewrite Address_uncached by exact Hempty. fold t.
    pose proof (selectAddr_wait r (addrCh lbp) t) as Hwait.
    split; [|split].
    + destruct (selectAddr r (addrCh lbp) t) as [[v ch|] waited];
        [|discriminate]. unfold close. now destruct (closed ch).
    + intros Hopen.
      destruct (selectAddr r (addrCh lbp) t) as [[v ch|] waited] eqn:Hsel;
        cbn [snd] in Hwait.
      * assert (Hch : closed ch = false).
        { unfold selectAddr, recv in Hsel.
          destruct (queue (addrCh lbp)) as [|v0 q].
          - rewrite Hopen in Hsel.
            destruct (publishes r) as [[d v']|]; [|discriminate].
            destruct (_ || _); [|discriminate]. now injection Hsel as _ <- _.
          - destruct (_ || _); [|discriminate]. injection Hsel as _ <- _.
            exact Hopen. }
        unfold close. rewrite Hch. cbn.
        eexists _, _, _, _. split; [reflexivity|]. split; [now left|]. cbn. lia.
      * eexists _, _, _, _. split; [reflexivity|]. split; [now right|].
        cbn. lia.
    + intros _ Hclosed Ht.
      assert (Htpos : 0 < t).
      { subst t. destruct (Z.eqb_spec (timeout lbp) 0); [reflexivity|lia]. }
      assert (Hsel : exists v ch, selectAddr r (addrCh lbp) t = (CaseAddr v ch, 0)
                                  /\ closed ch = true).
      { unfold selectAddr, recv. cbv zeta. replace (Z.max 0 t) with t by lia.
        assert (Hlt : (0 <? t) = true) by (apply Z.ltb_lt; lia).
        destruct (queue (addrCh lbp)) as [|v0 q].
        - rewrite Hclosed, Hlt. eexists _, _.
          split; [reflexivity|exact Hclosed].
        - rewrite Hlt. eexists _, _. split; [reflexivity|exact Hclosed]. }
      destruct Hsel as (v & ch & -> & Hch). unfold close. now rewrite Hch.
  - rewrite Address_cached by exact Hne. split; [discriminate|]. split.
    + intros _. eexists _, _, _, _. split; [reflexivity|].
      split; [now left|]. lia.
    + intros Hempty. contradiction.
Qed.

Lemma Address_returns_or_panics_witness :
  (exists a e lbp' w',
     Address noRace announced (worldOf ∅ (answering muteChild))
     = Done ((a, e), lbp', w'))
  /\ Address noRace
       (setAddrCh {| capacity := 1; queue := []; closed := true |} fooPlugin)
       (worldOf ∅ (answering muteChild))
     = Panics "close of closed channel".
Proof.
  split.
  - destruct (Address_returns_or_panics Executor noRace announced
                (worldOf ∅ (answering muteChild)))
      as (_ & Hopen & _).
    destruct (Hopen eq_refl) as (a & e & lbp' & w' & HA & _).
    now exists a, e, lbp', w'.
  - apply Address_returns_or_panics; [reflexivity|reflexivity|cbn; lia].
Defined.

(** *** More on the handshake *)

Lemma Address_read_closes (E : Type) (r : Race) (lbp lbp1 : Plugin E)
    (w w1 : World) (a : string) (e : option error) :
  Address r lbp w = Done ((a, e), lbp1, w1) ->
  Addr lbp = "" ->
  e = None ->
  closed (addrCh lbp1) = true /\ executor lbp1 = executor lbp.
Proof.
  intros HA Hempty ->. rewrite Address_uncached in HA by exact Hempty.
  destruct (selectAddr _ _ _) as [[v ch|] waited]; [|discriminate].
  unfold close in HA. destruct (closed ch); [discriminate|].
  cbn in HA. injection HA as <- <- <-. split; reflexivity.
Qed.

Section ServeAgain.

Context {E : Type} `{McnBinaryExecutor E}.

(** X13.  [Serve] cannot be run a second time on a plugin.  Once a call of
    [Address] has read the address from the channel, and so closed it, a
    new run of [Serve] whose child starts and announces itself panics at
    the send of the address.  While the address of the first run is still
    unread in the channel, the new run parks at that send. *)
Theorem Serve_again_fails (lbp : Plugin E) (w w' : World)
    (outScanner errScanner : Scanner) (ex : E) :
  Start (executor lbp) w = (inl (outScanner, errScanner), ex, w') ->
  Err (snd (Scan outScanner)) = None ->
  (forall (r : Race) (lbp0 : Plugin E) (w0 w1 : World) (a : string),
     Address r lbp0 w0 = Done ((a, None), lbp, w1) ->
     Addr lbp0 = "" ->
     run [OfServe Proceed; OfServe Proceed] (boot lbp w)
     = Panics "send on closed channel")
  /\ (closed (addrCh lbp) = false ->
      length (queue (addrCh lbp)) = capacity (addrCh lbp) ->
      run [OfServe Proceed; OfServe Proceed] (boot lbp w) = Blocks).
Proof.
  intros HS Herr.
  assert (H1 : step (OfServe Proceed) (boot lbp w)
               = Done (setServe
                         (AtPublish (Text (snd (Scan outScanner)))
                            (snd (Scan outScanner)) errScanner)
                         (setWorld w' (setPlugin (setExecutor ex lbp)
                                         (boot lbp w))))).
  { cbn [step]. rewrite (Serve_first_scan (boot lbp w) _ _ _ _ eq_refl HS).
    now rewrite Herr. }
  split.
  - intros r lbp0 w0 w1 a HA Hempty.
    destruct (Address_read_closes _ _ _ _ _ _ _ _ HA Hempty eq_refl)
      as [Hclosed _].
    cbn [run]. rewrite H1. cbn -[send]. unfold send. now rewrite Hclosed.
  - intros Hopen Hfull. cbn [run]. rewrite H1. cbn -[send]. unfold send.
    rewrite Hopen, Hfull, Nat.ltb_irrefl. reflexivity.
Qed.

End ServeAgain.

Lemma negb_empty_either (uid gid : string) :
  uid = "" \/ gid = "" ->
  negb (uid =? "")%string && negb (gid =? "")%string = false.
Proof. intros [-> | ->]; [reflexivity|]. apply andb_false_r. Qed.

(** X3.  From the construction of the plugin to its address.  When
    [NewPlugin] returns a plugin, no identity is asked for, pipes and
    launch succeed and the child writes a first line, then [Serve] reaches
    its event loop having spawned one child: the binary that [LookPath]
    found, given the whole argument vector of the supervisor, with no
    credential, and told the file name of the driver in its environment.
    The lines after the first wait in the relay of standard output, and
    [Address] returns the first line, trimmed. *)
Theorem NewPlugin_Serve_Address (driverName : string) (w w1 : World)
    (lbp : Plugin Executor) (line : string) (rest : list ScanOutcome) :
  NewPlugin driverName w = Done (inl lbp, w1) ->
  Getenv PluginUID w = "" \/ Getenv PluginGID w = "" ->
  stdoutPipe (os w) = None ->
  stderrPipe (os w) = None ->
  startErr (os w) = None ->
  stdout (child (os w)) = Token line None :: rest ->
  exists s : Sys Executor,
    run [OfServe Proceed; OfServe Proceed] (boot lbp w1) = Done s
    /\ serve s = AtSelect
    /\ (exists c,
          spawned (world s)
          = (spawned w ++ [{| image := c; inherited := environ (world s) |}])%list
          /\ Args c = binaryPath (executor lbp) :: osArgs w
          /\ sysProcAttr c = None)
    /\ Getenv PluginEnvDriverName (world s) = snd (Split driverName)
    /\ Getenv PluginEnvKey (world s) = PluginEnvVal
    /\ pendingLines (stdOutCh s) = relayed rest
    /\ pendingLines (stdErrCh s) = relayed (stderr (child (os w)))
    /\ forall (r : Race) (w0 : World),
         exists lbp' w',
           Address r (plugin s) w0 = Done ((TrimSpace line, None), lbp', w').
Proof.
  intros Hnew Hid Hout Herr Hstart Hline.
  assert (Hlbp : exists bin,
             lbp = {| stopCh := make bool 0; addrCh := make string 1;
                      executor := {| pluginStdout := None; pluginStderr := None;
                                     DriverName := snd (Split driverName);
                                     cmd := None; binaryPath := bin |};
                      Addr := ""; MachineName := ""; timeout := 0 |}
             /\ w1 = Debugf "Found binary path at %s" [AString bin] w).
  { unfold NewPlugin in Hnew. destruct (Split driverName) as [dir name].
    cbn [snd].
    destruct (if (dir =? "")%string then driverPath driverName w
              else Done driverName) as [path| |]; cbn in Hnew;
      [|discriminate..].
    destruct (lookPath (os w) path) as [bin|]; [|discriminate].
    injection Hnew as <- <-. now exists bin. }
  destruct Hlbp as (bin & -> & ->).
  eexists. split.
  { cbn [run step Serve execServer boot serve plugin world executor Start
           Executor_McnBinaryExecutor].
    unfold Executor_Start.
    change (Getenv PluginGID (Debugf _ _ (Debugf _ _ w)))
      with (Getenv PluginGID w).
    change (Getenv PluginUID (Debugf _ _ (Debugf _ _ w)))
      with (Getenv PluginUID w).
    rewrite (negb_empty_either _ _ Hid).
    cbn [os osArgs Debugf logf Setenv]. rewrite Hout, Herr, Hstart, Hline.
    cbn. reflexivity. }
  split; [reflexivity|]. split.
  { eexists. split; [reflexivity|]. split; reflexivity. }
  split; [apply Getenv_plugin|]. split; [apply Getenv_plugin|].
  split; [reflexivity|]. split; [reflexivity|].
  intros r w0. rewrite Address_uncached by reflexivity.
  cbn -[selectAddr TrimSpace].
  rewrite (selectAddr_buffered _ _ _ (TrimSpace line) [])
    by (reflexivity || reflexivity).
  cbn -[TrimSpace]. eexists _, _. reflexivity.
Qed.

Lemma NewPlugin_Serve_Address_witness :
  exists (s : Sys Executor) lbp' w',
    run [OfServe Proceed; OfServe Proceed]
      (boot fooPlugin
         (Debugf "Found binary path at %s"
            [AString "/usr/local/bin/docker-machine-driver-foo"]
            (worldOf ∅ (answering (talkingChild None))))) = Done s
    /\ Address noRace (plugin s) (world s)
       = Done (("127.0.0.1:41217", None), lbp', w').
Proof.
  edestruct (NewPlugin_Serve_Address "foo"
               (worldOf ∅ (answering (talkingChild None))))
    as (s & Hrun & _ & _ & _ & _ & _ & _ & HA);
    [vm_compute; reflexivity | left; reflexivity | reflexivity..|].
  destruct (HA noRace (world s)) as (lbp' & w' & HA').
  exists s, lbp', w'. split; [exact Hrun|exact HA'].
Defined.

(** *** Runs of the scenarios *)

Lemma Serve_returns_start_error_witness :
  exists s1 : Sys Executor,
    Serve Proceed (boot fooPlugin (worldOf badIdentity (answering muteChild)))
    = Done s1
    /\ serve s1
       = Returned (Some (Errorf "error parsing user ID: %w"
                           (AError (NumError "Atoi" "root")))).
Proof.
  edestruct (@Serve_returns_start_error Executor Executor_McnBinaryExecutor
               (boot fooPlugin (worldOf badIdentity (answering muteChild))))
    as (s1 & H1 & Hst & _); [reflexivity | vm_compute; reflexivity |].
  exists s1. split; [exact H1|exact Hst].
Defined.

Lemma Serve_returns_scan_error_witness :
  exists s1 : Sys Executor,
    Serve Proceed (boot fooPlugin (worldOf ∅ (answering brokenChild))) = Done s1
    /\ serve s1
       = Returned (Some (Errorf "Reading plugin address failed: %s"
                           (AError (OSError "read |0: input/output error"))))
    /\ addrCh (plugin s1) = make string 1.
Proof.
  edestruct (@Serve_returns_scan_error Executor Executor_McnBinaryExecutor
               (boot fooPlugin (worldOf ∅ (answering brokenChild))))
    as (s1 & H1 & Hst & _ & _ & Hever);
    [reflexivity | vm_compute; reflexivity | vm_compute; reflexivity |].
  exists s1. split; [exact H1|]. split; [exact Hst|].
  exact (proj1 (proj2 (Hever [] s1 eq_refl))).
Defined.

Lemma relayed_in_order_witness :
  exists s s' : Sys Executor,
    run [OfServe Proceed; OfServe Proceed]
      (boot devPlugin (worldOf ∅ (answering (talkingChild None)))) = Done s
    /\ run relaying s = Done s'
    /\ (tagged InfoLevel pluginOut (logged (world s'))
        ++ map (pair "dev") (pendingLines (stdOutCh s')))%list
       = [("dev", "ready")]
    /\ (tagged DebugLevel pluginErr (logged (world s'))
        ++ map (pair "dev") (pendingLines (stdErrCh s')))%list
       = [("dev", "debugging")].
Proof.
  eassert (Hsel : run [OfServe Proceed; OfServe Proceed]
                    (boot devPlugin (worldOf ∅ (answering (talkingChild None))))
                  = Done _) by (vm_compute; reflexivity).
  match type of Hsel with
  | _ = Done ?sel =>
      eassert (Hrun : run relaying sel = Done _) by (vm_compute; reflexivity);
      destruct (@relayed_in_order Executor Executor_McnBinaryExecutor
                  relaying sel _ eq_refl Hrun) as [Ho He]
  end.
  eexists _, _. split; [exact Hsel|]. split; [exact Hrun|].
  split; [exact Ho|exact He].
Defined.

Lemma nothing_relayed_after_stop_witness :
  exists s s' : Sys Executor,
    run [OfServe Proceed; OfServe Proceed; CallClose; OfServe CaseStop]
      (boot devPlugin (worldOf ∅ (answering (talkingChild None)))) = Done s
    /\ run [ScanOut; ScanErr; OfServe WaitReturns; CallClose] s = Done s'
    /\ tagged InfoLevel pluginOut (logged (world s')) = []
    /\ tagged DebugLevel pluginErr (logged (world s')) = [].
Proof.
  eassert (Hsel : run [OfServe Proceed; OfServe Proceed; CallClose;
                       OfServe CaseStop]
                    (boot devPlugin (worldOf ∅ (answering (talkingChild None))))
                  = Done _) by (vm_compute; reflexivity).
  match type of Hsel with
  | _ = Done ?sel =>
      eassert (Hrun : run [ScanOut; ScanErr; OfServe WaitReturns; CallClose] sel
                      = Done _) by (vm_compute; reflexivity);
      destruct (@nothing_relayed_after_stop Executor Executor_McnBinaryExecutor
                  _ sel _ eq_refl Hrun) as (_ & Ho & He)
  end.
  eexists _, _. split; [exact Hsel|]. split; [exact Hrun|].
  split; [exact Ho|exact He].
Defined.

Lemma one_Close_returns_witness :
  exists s : Sys Executor,
    run [OfServe Proceed; CallClose; OfServe Proceed; CallClose;
         OfServe CaseStop; CallClose]
      (boot fooPlugin (worldOf ∅ (answering (talkingChild None)))) = Done s
    /\ (length (returned (closers s)) <= 1)%nat
    /\ length (closers s) = 3%nat.
Proof.
  eassert (Hrun : run [OfServe Proceed; CallClose; OfServe Proceed; CallClose;
                       OfServe CaseStop; CallClose]
                    (boot fooPlugin (worldOf ∅ (answering (talkingChild None))))
                  = Done _) by (vm_compute; reflexivity).
  match type of Hrun with
  | run ?ls (boot ?lbp ?w) = Done ?s =>
      destruct (@one_Close_returns Executor Executor_McnBinaryExecutor
                  ls lbp w s eq_refl Hrun) as [Hone _]
  end.
  eexists. split; [exact Hrun|]. split; [exact Hone|reflexivity].
Defined.

Lemma Close_after_stop_parks_witness :
  exists (s s' : Sys Executor) (n : nat),
    run [OfServe Proceed; OfServe Proceed; CallClose; OfServe CaseStop]
      (boot fooPlugin (worldOf ∅ (answering (talkingChild None)))) = Done s
    /\ run [CallClose; OfServe WaitReturns; CallClose] s = Done s'
    /\ closers s' = (closers s ++ repeat AtSend n)%list.
Proof.
  eassert (Hsel : run [OfServe Proceed; OfServe Proceed; CallClose;
                       OfServe CaseStop]
                    (boot fooPlugin (worldOf ∅ (answering (talkingChild None))))
                  = Done _) by (vm_compute; reflexivity).
  match type of Hsel with
  | _ = Done ?sel =>
      eassert (Hrun : run [CallClose; OfServe WaitReturns; CallClose] sel
                      = Done _) by (vm_compute; reflexivity);
      destruct (@Close_after_stop_parks Executor Executor_McnBinaryExecutor
                  _ sel _ eq_refl eq_refl Hrun) as [n Hn]
  end.
  eexists _, _, n. split; [exact Hsel|]. split; [exact Hrun|exact Hn].
Defined.

Lemma Serve_again_fails_witness :
  exists (lbp1 : Plugin Executor) (w1 : World),
    Address noRace announced (worldOf ∅ (answering (talkingChild None)))
    = Done (("127.0.0.1:41217", None), lbp1, w1)
    /\ run [OfServe Proceed; OfServe Proceed]
         (boot lbp1 (worldOf ∅ (answering (talkingChild None))))
       = Panics "send on closed channel".
Proof.
  eassert (HA : Address noRace announced
                  (worldOf ∅ (answering (talkingChild None)))
                = Done (("127.0.0.1:41217", None), _, _))
    by (vm_compute; reflexivity).
  match type of HA with
  | _ = Done (_, ?lbp1, _) =>
      edestruct (@Serve_again_fails Executor Executor_McnBinaryExecutor lbp1
                   (worldOf ∅ (answering (talkingChild None))))
        as [Hpanic _]; [vm_compute; reflexivity | vm_compute; reflexivity |]
  end.
  eexists _, _. split; [exact HA|].
  exact (Hpanic noRace announced _ _ _ HA eq_refl).
Defined.

Lemma Serve_returns_nil_only_stopped_witness :
  exists s : Sys Executor,
    run ([OfServe Proceed; OfServe Proceed] ++ shutdown)
      (boot fooPlugin (worldOf ∅ (answering (talkingChild None)))) = Done s
    /\ serve s = Returned None
    /\ length (returned (closers s)) = 1%nat.
Proof.
  eassert (Hrun : run ([OfServe Proceed; OfServe Proceed] ++ shutdown)
                    (boot fooPlugin (worldOf ∅ (answering (talkingChild None))))
                  = Done _) by (vm_compute; reflexivity).
  match type of Hrun with
  | run ?ls (boot ?lbp ?w) = Done ?s =>
      destruct (@Serve_returns_nil_only_stopped Executor
                  Executor_McnBinaryExecutor ls lbp w s eq_refl Hrun)
        as [Hnil _]
  end.
  eexists. split; [exact Hrun|]. split; [reflexivity|]. apply Hnil. reflexivity.
Defined.
